(** * RSVP admission control of the event-management server

    A shallow embedding of
    - [server/models/Event.js]            (schema, virtuals, [atomicRSVP],
                                           [atomicRemoveRSVP]),
    - [server/controllers/rsvpController] ([joinEvent], [leaveEvent]),
    - [server/controllers/eventController] ([createEvent], [updateEvent]),
    - [server/routes/eventRoutes]         (the express-validator chains),
    with the MongoDB collection of events as a finite map from [_id] to
    documents.  Every database call of a handler is one atomic step on that
    map; a handler is a small state machine over its database calls, so that
    handlers of concurrent requests can be interleaved call by call. *)

From Stdlib Require Import ZArith List Ascii Lia.
From stdpp Require Import gmap strings list fin_maps pretty sorting.

Local Open Scope string_scope.
Local Open Scope list_scope.

(** ** Documents *)

(** [image: { url, publicId }] *)
Record Image := { url : string; publicId : string }.

(** The fields of [eventSchema].  [date] is the time value of the JS [Date]
    (milliseconds since the epoch), [capacity] a JS number that every write
    path passes through [parseInt], [creator] and [attendees] hold ObjectIds,
    written as the strings [toString()] gives.  The document's [_id] is its
    key in the collection. *)
Record Event := {
  title : string;
  description : string;
  date : Z;
  time : string;
  location : string;
  capacity : Z;
  category : string;
  image : Image;
  creator : string;
  attendees : list string;
  isActive : bool
}.

(** The [events] collection. *)
Abbreviation Store := (gmap string Event).

(** [this.attendees.length] as a JS number. *)
Definition attendeeCount (e : Event) : Z := Z.of_nat (length (attendees e)).

(** ** MongoDB update operators and queries *)

(** [attendees: userId] as a query condition on an array field: some element
    equals [userId]; [attendees: { $ne: userId }] is its negation. *)
Definition attending (userId : string) (e : Event) : bool :=
  bool_decide (userId ∈ attendees e).

(** [$addToSet: { attendees: userId }] *)
Definition addToSet (userId : string) (l : list string) : list string :=
  if bool_decide (userId ∈ l) then l else l ++ [userId].

(** [$pull: { attendees: userId }] removes every occurrence. *)
Definition pull (userId : string) (l : list string) : list string :=
  filter (λ a, a ≠ userId) l.

Definition setAttendees (l : list string) (e : Event) : Event :=
  {| title := title e; description := description e; date := date e;
     time := time e; location := location e; capacity := capacity e;
     category := category e; image := image e; creator := creator e;
     attendees := l; isActive := isActive e |}.

(** [Model.findById(id)] *)
Definition findById (s : Store) (id : string) : option Event := s !! id.

(** [Model.findOneAndUpdate({ _id: id, ...cond }, upd, { new: true })]:
    one atomic step of the store.  The document with this [_id] is updated
    when it exists and satisfies [cond]; the result is the updated document
    ([new: true]) or [null]. *)
Definition findOneAndUpdate (cond : Event → bool) (upd : Event → Event)
    (s : Store) (id : string) : option Event * Store :=
  match s !! id with
  | Some e => if cond e then (Some (upd e), <[id := upd e]> s) else (None, s)
  | None => (None, s)
  end.

(** [eventSchema.statics.atomicRSVP]: the filter
    [{ _id, attendees: { $ne: userId },
       $expr: { $lt: [{ $size: '$attendees' }, '$capacity'] } }]
    with the update [{ $addToSet: { attendees: userId } }].
    [joinEvent] issues this same query inline. *)
Definition rsvpCond (userId : string) (e : Event) : bool :=
  negb (attending userId e) && (attendeeCount e <? capacity e)%Z.

Definition atomicRSVP (s : Store) (eventId userId : string)
    : option Event * Store :=
  findOneAndUpdate (rsvpCond userId)
    (λ e, setAttendees (addToSet userId (attendees e)) e) s eventId.

(** [eventSchema.statics.atomicRemoveRSVP]: filter [{ _id, attendees: userId }],
    update [{ $pull: { attendees: userId } }]; inlined in [leaveEvent]. *)
Definition atomicRemoveRSVP (s : Store) (eventId userId : string)
    : option Event * Store :=
  findOneAndUpdate (attending userId)
    (λ e, setAttendees (pull userId (attendees e)) e) s eventId.

(** ** Requests, the environment of a handler run, responses *)

(** An error thrown by the driver. *)
Module MongoError.
Record t := { name : string; code : Z; message : string }.
End MongoError.

(** What a handler can catch: an error of the driver, mongoose's [CastError]
    for a string that is no ObjectId, a [ValidationError] of a schema
    validator at a path, the [Error] of a hook, MongoDB's duplicate-key
    error. *)
Inductive Thrown :=
| DriverError (err : MongoError.t)
| CastError (value : string)
| ValidationError (path : string)
| HookError (msg : string)
| DuplicateKey.

(** What a handler run takes from outside the store: the clock read by
    [new Date()], and whether the driver throws at the atomic update
    (connectivity, a write conflict of the transaction). *)
Record Env := { now : Z; fault : option MongoError.t }.

(** A field of [req.body] that a validator parses: left out, a well-formed
    literal with its value, or anything else. *)
Inductive Field (A : Type) :=
| Absent
| Value (a : A)
| Malformed (raw : string).
Arguments Absent {A}.
Arguments Value {A} a.
Arguments Malformed {A} raw.

(** [req.body] of the event routes, as the sanitizers ([trim]) leave it.
    [date] carries the time value [new Date(date)] gives for an ISO 8601
    string, [capacity] the integer [parseInt(capacity)] gives for an integer
    literal.  An [image] sent as a plain string is the image with that [url]
    and an empty [publicId]. *)
Module Body.
Record t := {
  title : option string;
  description : option string;
  date : Field Z;
  time : option string;
  location : option string;
  capacity : Field Z;
  category : option string;
  image : option Image
}.
End Body.

(** [req.params.id], [req.user.id], [req.body] and [req.file] (as the image
    [{ url: req.file.path, publicId: req.file.filename }]).  The RSVP routes
    read the first two only. *)
Record Request := {
  params_id : string;
  user_id : string;
  body : Body.t;
  file : option Image
}.

(** [res.status(st).json({ success, message, event, spotsRemaining, error })];
    a key the handler leaves out is [false] / [None].  [error] stands for
    [error.message], [event] for the document before [populate] replaces the
    ids of its creator and attendees by user documents; the [errors] array of
    a failed validation is not kept. *)
Record Response := {
  status : Z;
  success : bool;
  message : string;
  event : option Event;
  spotsRemaining : option Z;
  error : option Thrown
}.

Definition reply (st : Z) (msg : string) : Response :=
  {| status := st; success := false; message := msg; event := None;
     spotsRemaining := None; error := None |}.

(** The responses of [joinEvent] and [leaveEvent], under the names of the
    caller-facing result codes. *)
Definition InvalidId : Response := reply 400 "Invalid event ID".
Definition NotFound : Response := reply 404 "Event not found".
Definition EventEnded : Response := reply 400 "Cannot RSVP to a past event".
Definition CreatorImplicitlyAttending : Response :=
  reply 400 "Event creators are automatically attending their events".
Definition AlreadyJoined : Response :=
  reply 400 "You have already RSVPed to this event".
Definition AtCapacity : Response :=
  {| status := 400; success := false;
     message := "Sorry, this event is at full capacity"; event := None;
     spotsRemaining := Some 0%Z; error := None |}.
Definition TransientConflict : Response :=
  reply 400 "Unable to RSVP. Please try again.".
Definition NotJoined : Response := reply 400 "You are not RSVPed to this event".
Definition Joined (e : Event) : Response :=
  {| status := 200; success := true;
     message := "Successfully RSVPed to event!"; event := Some e;
     spotsRemaining := Some (capacity e - attendeeCount e)%Z; error := None |}.
Definition Left (e : Event) : Response :=
  {| status := 200; success := true;
     message := "Successfully cancelled your RSVP"; event := Some e;
     spotsRemaining := Some (capacity e - attendeeCount e)%Z; error := None |}.
Definition WriteConflict : Response :=
  reply 409 "Concurrent update detected. Please try again.".
Definition ServerError (msg : string) (err : Thrown) : Response :=
  {| status := 500; success := false; message := msg; event := None;
     spotsRemaining := None; error := Some err |}.

(** A response of the [catch] block: the handler's error path. *)
Definition isErrorResponse (r : Response) : bool :=
  bool_decide (status r = 409%Z) || bool_decide (status r = 500%Z).

(** ** The RSVP controller *)

Section Handlers.

(** [mongoose.Types.ObjectId.isValid], from the mongoose package. *)
Variable isValid : string → bool.

(** Documents are stored under ObjectIds only. *)
Definition validKeys (s : Store) : Prop :=
  ∀ id e, s !! id = Some e → isValid id = true.

(** *** [joinEvent] *)

(** The [catch] block of [joinEvent]; the transaction is rolled back. *)
Definition joinCatch (err : MongoError.t) : Response :=
  if bool_decide (MongoError.name err = "MongoError")
     && bool_decide (MongoError.code err = 112%Z)
  then WriteConflict
  else ServerError "Error joining event" (DriverError err).

(** The branch [if (!event)] of [joinEvent]: a separate [findById] and the
    reason of the failure, in the order of the [if]s. *)
Definition joinDiagnose (env : Env) (req : Request) (s : Store) : Response :=
  match findById s (params_id req) with
  | None => NotFound
  | Some existingEvent =>
      if (date existingEvent <? now env)%Z then EventEnded
      else if bool_decide (creator existingEvent = user_id req)
      then CreatorImplicitlyAttending
      else if bool_decide (user_id req ∈ attendees existingEvent)
      then AlreadyJoined
      else if (capacity existingEvent <=? attendeeCount existingEvent)%Z
      then AtCapacity
      else TransientConflict
  end.

(** Where a run of [joinEvent] stands between its database calls. *)
Inductive JoinPc :=
| JoinStart
| JoinDiagnose
| JoinDone (r : Response).

(** One database call of [joinEvent] with the code up to the next one.
    The atomic update and the commit of its transaction are one step: the
    update is the only write of the transaction. *)
Definition joinStep (env : Env) (req : Request) (pc : JoinPc) (s : Store)
    : JoinPc * Store :=
  match pc with
  | JoinStart =>
      if negb (isValid (params_id req)) then (JoinDone InvalidId, s)
      else match fault env with
           | Some err => (JoinDone (joinCatch err), s)
           | None =>
               match atomicRSVP s (params_id req) (user_id req) with
               | (Some event, s') => (JoinDone (Joined event), s')
               | (None, s') => (JoinDiagnose, s')
               end
           end
  | JoinDiagnose => (JoinDone (joinDiagnose env req s), s)
  | JoinDone r => (JoinDone r, s)
  end.

(** [joinEvent] run without another request in between. *)
Definition joinEvent (env : Env) (req : Request) (s : Store)
    : Response * Store :=
  match joinStep env req JoinStart s with
  | (JoinDone r, s1) => (r, s1)
  | (_, s1) => (joinDiagnose env req s1, s1)
  end.

(** *** [leaveEvent] *)

Definition leaveCatch (err : MongoError.t) : Response :=
  ServerError "Error cancelling RSVP" (DriverError err).

Definition leaveDiagnose (req : Request) (s : Store) : Response :=
  match findById s (params_id req) with
  | None => NotFound
  | Some _ => NotJoined
  end.

Inductive LeavePc :=
| LeaveStart
| LeaveDiagnose
| LeaveDone (r : Response).

Definition leaveStep (env : Env) (req : Request) (pc : LeavePc) (s : Store)
    : LeavePc * Store :=
  match pc with
  | LeaveStart =>
      if negb (isValid (params_id req)) then (LeaveDone InvalidId, s)
      else match fault env with
           | Some err => (LeaveDone (leaveCatch err), s)
           | None =>
               match atomicRemoveRSVP s (params_id req) (user_id req) with
               | (Some event, s') => (LeaveDone (Left event), s')
               | (None, s') => (LeaveDiagnose, s')
               end
           end
  | LeaveDiagnose => (LeaveDone (leaveDiagnose req s), s)
  | LeaveDone r => (LeaveDone r, s)
  end.

Definition leaveEvent (env : Env) (req : Request) (s : Store)
    : Response * Store :=
  match leaveStep env req LeaveStart s with
  | (LeaveDone r, s1) => (r, s1)
  | (_, s1) => (leaveDiagnose req s1, s1)
  end.

End Handlers.

(** ** The event controller *)

(** [if (x)] on a string of the body. *)
Definition truthy (o : option string) : option string :=
  match o with
  | Some EmptyString => None
  | _ => o
  end.

(** The messages of the failed validators of a chain, in the order of the
    chain. *)
Definition notEmpty (msg : string) (o : option string) : list string :=
  match truthy o with None => [msg] | Some _ => [] end.

Definition isLength (max : nat) (msg : string) (o : option string)
    : list string :=
  match o with
  | Some v => if (max <? String.length v)%nat then [msg] else []
  | None => []
  end.

Definition rawNotEmpty {A} (msg : string) (f : Field A) : list string :=
  match f with
  | Absent | Malformed EmptyString => [msg]
  | _ => []
  end.

Definition isISO8601 (optional : bool) (msg : string) (f : Field Z)
    : list string :=
  match f with
  | Absent => if optional then [] else [msg]
  | Value _ => []
  | Malformed _ => [msg]
  end.

(** [isInt({ min: 1 })] *)
Definition isIntMin1 (optional : bool) (msg : string) (f : Field Z)
    : list string :=
  match f with
  | Absent => if optional then [] else [msg]
  | Value n => if (1 <=? n)%Z then [] else [msg]
  | Malformed _ => [msg]
  end.

(** [eventValidation] of the routes *)
Definition eventValidation (b : Body.t) : list string :=
  notEmpty "Title is required" (Body.title b)
  ++ isLength 100 "Title cannot exceed 100 characters" (Body.title b)
  ++ notEmpty "Description is required" (Body.description b)
  ++ isLength 2000 "Description cannot exceed 2000 characters"
       (Body.description b)
  ++ rawNotEmpty "Date is required" (Body.date b)
  ++ isISO8601 false "Please provide a valid date" (Body.date b)
  ++ notEmpty "Time is required" (Body.time b)
  ++ notEmpty "Location is required" (Body.location b)
  ++ rawNotEmpty "Capacity is required" (Body.capacity b)
  ++ isIntMin1 false "Capacity must be at least 1" (Body.capacity b).

(** [eventUpdateValidation] of the routes *)
Definition eventUpdateValidation (b : Body.t) : list string :=
  isLength 100 "Title cannot exceed 100 characters" (Body.title b)
  ++ isLength 2000 "Description cannot exceed 2000 characters"
       (Body.description b)
  ++ isISO8601 true "Please provide a valid date" (Body.date b)
  ++ isIntMin1 true "Capacity must be at least 1" (Body.capacity b).

(** The [enum] of [category]. *)
Definition categories : list string :=
  ["conference"; "workshop"; "social"; "sports"; "music"; "art"; "food";
   "tech"; "business"; "other"].

(** The update object [updateData] of [updateEvent]. *)
Module UpdateData.
Record t := {
  title : option string;
  description : option string;
  date : option Z;
  time : option string;
  location : option string;
  category : option string;
  capacity : option Z;
  image : option Image
}.
End UpdateData.

(** The schema validators that [runValidators: true] runs on the paths of an
    update: the path of the first one that fails. *)
Definition updateValidators (u : UpdateData.t) : option string :=
  match UpdateData.title u with
  | Some v => if (100 <? String.length v)%nat then Some "title" else None
  | None => None
  end
  ∪ match UpdateData.description u with
    | Some v =>
        if (2000 <? String.length v)%nat then Some "description" else None
    | None => None
    end
  ∪ match UpdateData.capacity u with
    | Some n => if (n <? 1)%Z then Some "capacity" else None
    | None => None
    end
  ∪ match UpdateData.category u with
    | Some c => if bool_decide (c ∈ categories) then None else Some "category"
    | None => None
    end.

(** The update [{ $set: updateData }] on a document. *)
Definition applyUpdate (u : UpdateData.t) (e : Event) : Event :=
  {| title := default (title e) (UpdateData.title u);
     description := default (description e) (UpdateData.description u);
     date := default (date e) (UpdateData.date u);
     time := default (time e) (UpdateData.time u);
     location := default (location e) (UpdateData.location u);
     capacity := default (capacity e) (UpdateData.capacity u);
     category := default (category e) (UpdateData.category u);
     image := default (image e) (UpdateData.image u);
     creator := creator e;
     attendees := attendees e;
     isActive := isActive e |}.

Definition Updated (e : option Event) : Response :=
  {| status := 200; success := true; message := "Event updated successfully";
     event := e; spotsRemaining := None; error := None |}.

Definition CapacityBelowAttendees (count : nat) : Response :=
  reply 400
    (String.append "Capacity cannot be less than current attendees ("
       (String.append (pretty count) ")")).

(** [updateData] as [updateEvent] builds it from the body, the file and the
    document [event] it has read, or the response of the capacity check.
    A body that passed [eventUpdateValidation] has no malformed field and,
    if any, a capacity of at least one, so that [if (capacity)] holds exactly
    when the field is there.  The calls of [deleteImage] reach the image host
    only. *)
Definition buildUpdate (req : Request) (event : Event)
    : Response + UpdateData.t :=
  let b := body req in
  let fromBody newCapacity :=
    {| UpdateData.title := truthy (Body.title b);
       UpdateData.description := truthy (Body.description b);
       UpdateData.date :=
         match Body.date b with Value d => Some d | _ => None end;
       UpdateData.time := truthy (Body.time b);
       UpdateData.location := truthy (Body.location b);
       UpdateData.category := truthy (Body.category b);
       UpdateData.capacity := newCapacity;
       UpdateData.image :=
         match file req with
         | Some f => Some f
         | None => Body.image b
         end |} in
  match Body.capacity b with
  | Value newCapacity =>
      if (newCapacity <? attendeeCount event)%Z
      then inl (CapacityBelowAttendees (length (attendees event)))
      else inr (fromBody (Some newCapacity))
  | _ => inr (fromBody None)
  end.

(** Where a run of [updateEvent] stands: before [Event.findById], or with
    [updateData] built and [Event.findByIdAndUpdate] still to come. *)
Inductive UpdatePc :=
| UpdateStart
| UpdateWrite (updateData : UpdateData.t)
| UpdateDone (r : Response).

(** [Event.findByIdAndUpdate(req.params.id, updateData,
      { new: true, runValidators: true })] and the response. *)
Definition updateWrite (req : Request) (updateData : UpdateData.t) (s : Store)
    : Response * Store :=
  match updateValidators updateData with
  | Some path =>
      (ServerError "Error updating event" (ValidationError path), s)
  | None =>
      match s !! params_id req with
      | Some e =>
          (Updated (Some (applyUpdate updateData e)),
           <[params_id req := applyUpdate updateData e]> s)
      | None => (Updated None, s)
      end
  end.

(** The validators of [eventSchema] that run on a new document
    ([required], [maxlength], [min], [enum]): the path of the first one that
    fails. *)
Definition schemaValidators (e : Event) : option string :=
  (if bool_decide (title e = "") || (100 <? String.length (title e))%nat
   then Some "title" else None)
  ∪ (if bool_decide (description e = "")
        || (2000 <? String.length (description e))%nat
     then Some "description" else None)
  ∪ (if bool_decide (time e = "") then Some "time" else None)
  ∪ (if bool_decide (location e = "") then Some "location" else None)
  ∪ (if (capacity e <? 1)%Z then Some "capacity" else None)
  ∪ (if bool_decide (category e ∈ categories) then None else Some "category").

(** [eventSchema.pre('save')] *)
Definition preSave (e : Event) : option string :=
  if (capacity e <? attendeeCount e)%Z
  then Some "Attendees cannot exceed capacity" else None.

Definition Created (e : Event) : Response :=
  {| status := 201; success := true; message := "Event created successfully";
     event := Some e; spotsRemaining := None; error := None |}.

(** [createEvent]; [newId] is the [_id] that [Event.create] gives the
    document. *)
Definition createEvent (newId : string) (req : Request) (s : Store)
    : Response * Store :=
  let b := body req in
  let failed err := (ServerError "Error creating event" err, s) in
  match eventValidation b with
  | msg :: _ => (reply 400 msg, s)
  | [] =>
      match Body.title b, Body.description b, Body.date b, Body.time b,
            Body.location b, Body.capacity b with
      | Some title, Some description, Value date, Some time, Some location,
        Value capacity =>
          let eventData :=
            {| title := title; description := description; date := date;
               time := time; location := location; capacity := capacity;
               category := default "other" (truthy (Body.category b));
               image :=
                 match file req with
                 | Some f => f
                 | None =>
                     default {| url := ""; publicId := "" |} (Body.image b)
                 end;
               creator := user_id req;
               attendees := [];
               isActive := true |} in
          match schemaValidators eventData with
          | Some path => failed (ValidationError path)
          | None =>
              match preSave eventData with
              | Some msg => failed (HookError msg)
              | None =>
                  match s !! newId with
                  | Some _ => failed DuplicateKey
                  | None => (Created eventData, <[newId := eventData]> s)
                  end
              end
          end
      | _, _, _, _, _, _ => failed (ValidationError "required")
      end
  end.

Section EventController.

Variable isValid : string → bool.

(** [updateEvent] up to the call of [Event.findByIdAndUpdate]: a response, or
    the update to write. *)
Definition updateRead (req : Request) (s : Store) : Response + UpdateData.t :=
  match eventUpdateValidation (body req) with
  | msg :: _ => inl (reply 400 msg)
  | [] =>
      if negb (isValid (params_id req))
      then inl (ServerError "Error updating event" (CastError (params_id req)))
      else match findById s (params_id req) with
           | None => inl NotFound
           | Some event =>
               if negb (bool_decide (creator event = user_id req))
               then inl (reply 403 "Not authorized to update this event")
               else buildUpdate req event
           end
  end.

Definition updateStep (req : Request) (pc : UpdatePc) (s : Store)
    : UpdatePc * Store :=
  match pc with
  | UpdateStart =>
      match updateRead req s with
      | inl r => (UpdateDone r, s)
      | inr updateData => (UpdateWrite updateData, s)
      end
  | UpdateWrite updateData =>
      let '(r, s') := updateWrite req updateData s in (UpdateDone r, s')
  | UpdateDone r => (UpdateDone r, s)
  end.

(** [updateEvent] run without another request in between. *)
Definition updateEvent (req : Request) (s : Store) : Response * Store :=
  match updateRead req s with
  | inl r => (r, s)
  | inr updateData => updateWrite req updateData s
  end.

(** [deleteEvent]: [Event.findById], the ownership check,
    [Event.findByIdAndDelete]. *)
Definition deleteEvent (req : Request) (s : Store) : Response * Store :=
  if negb (isValid (params_id req))
  then (ServerError "Error deleting event" (CastError (params_id req)), s)
  else match findById s (params_id req) with
       | None => (NotFound, s)
       | Some event =>
           if negb (bool_decide (creator event = user_id req))
           then (reply 403 "Not authorized to delete this event", s)
           else ({| status := 200; success := true;
                    message := "Event deleted successfully"; event := None;
                    spotsRemaining := None; error := None |},
                 delete (params_id req) s)
       end.

End EventController.

(** ** Concurrent requests *)

Section Concurrent.

Variable isValid : string → bool.

(** A request in flight: its handler with where it stands. *)
Inductive Handler :=
| HJoin (env : Env) (req : Request) (pc : JoinPc)
| HLeave (env : Env) (req : Request) (pc : LeavePc)
| HUpdate (req : Request) (pc : UpdatePc).

(** The next database call of a handler. *)
Definition handlerStep (h : Handler) (s : Store) : Handler * Store :=
  match h with
  | HJoin env req pc =>
      let '(pc', s') := joinStep isValid env req pc s in (HJoin env req pc', s')
  | HLeave env req pc =>
      let '(pc', s') := leaveStep isValid env req pc s in
      (HLeave env req pc', s')
  | HUpdate req pc =>
      let '(pc', s') := updateStep isValid req pc s in (HUpdate req pc', s')
  end.

(** The response of a handler that has finished. *)
Definition response (h : Handler) : option Response :=
  match h with
  | HJoin _ _ (JoinDone r) | HLeave _ _ (LeaveDone r)
  | HUpdate _ (UpdateDone r) => Some r
  | _ => None
  end.

(** The handlers in flight take their steps in the order of a schedule, a
    list of positions in the pool; the position of no handler is skipped. *)
Fixpoint run (sched : list nat) (pool : list Handler) (s : Store)
    : list Handler * Store :=
  match sched with
  | [] => (pool, s)
  | i :: sched' =>
      match pool !! i with
      | Some h =>
          let '(h', s') := handlerStep h s in run sched' (<[i := h']> pool) s'
      | None => run sched' pool s
      end
  end.

End Concurrent.

(** ** Sequences of requests *)

Section Sequences.

Variable isValid : string → bool.

(** Join requests served one after the other: the responses in order and
    the store they leave. *)
Fixpoint joinAll (reqs : list (Env * Request)) (s : Store)
    : list Response * Store :=
  match reqs with
  | [] => ([], s)
  | (env, req) :: reqs' =>
      let '(r, s1) := joinEvent isValid env req s in
      let '(rs, s2) := joinAll reqs' s1 in
      (r :: rs, s2)
  end.

End Sequences.

(** ** The conditions of the specification *)

(** The precondition of a join: the event exists, the user is no member,
    the members are fewer than the capacity. *)
Definition joinApplies (s : Store) (eventId userId : string) : Prop :=
  ∃ e, s !! eventId = Some e ∧ (userId ∉ attendees e)
       ∧ (attendeeCount e < capacity e)%Z.

(** The precondition of a leave: the user is a member of an existing event. *)
Definition leaveApplies (s : Store) (eventId userId : string) : Prop :=
  ∃ e, s !! eventId = Some e ∧ userId ∈ attendees e.

(** The members of an event of the store; none when it does not exist. *)
Definition members (s : Store) (eventId : string) : list string :=
  match s !! eventId with
  | Some e => attendees e
  | None => []
  end.

(** No overbooking, for one event and for a store. *)
Definition withinCapacity (e : Event) : Prop :=
  (attendeeCount e <= capacity e)%Z.

Definition noOverbooking (s : Store) : Prop :=
  ∀ id e, s !! id = Some e → withinCapacity e.

(** The causes of a join that did not apply, in the order of the
    specification, each with its result code: the event is missing, its
    scheduled time is in the past, the caller is its creator, the caller is
    already a member, the members have reached the capacity. *)
Definition holds (fresh : option Event) (p : Event → bool) : bool :=
  match fresh with
  | Some e => p e
  | None => false
  end.

Definition joinFailureCauses (now : Z) (userId : string)
    (fresh : option Event) : list (bool * Response) :=
  [ (bool_decide (fresh = None), NotFound);
    (holds fresh (λ e, bool_decide (date e < now)%Z), EventEnded);
    (holds fresh (λ e, bool_decide (creator e = userId)),
     CreatorImplicitlyAttending);
    (holds fresh (λ e, bool_decide (userId ∈ attendees e)), AlreadyJoined);
    (holds fresh (λ e, bool_decide (attendeeCount e >= capacity e)%Z),
     AtCapacity) ].

(** The first cause that holds decides; with none, a transient conflict. *)
Definition classifyJoinFailure (now : Z) (userId : string)
    (fresh : option Event) : Response :=
  match List.find fst (joinFailureCauses now userId fresh) with
  | Some c => c.2
  | None => TransientConflict
  end.

(** How often a user is listed among the members. *)
Definition occurrences (userId : string) (l : list string) : nat :=
  length (filter (λ a, a = userId) l).

(** The turns a schedule gives to the handler at a position. *)
Definition turns (i : nat) (sched : list nat) : nat :=
  length (filter (λ j, j = i) sched).

(** The database calls a handler has at most before it responds. *)
Definition pending (h : Handler) : nat :=
  match h with
  | HJoin _ _ JoinStart | HLeave _ _ LeaveStart | HUpdate _ UpdateStart => 2
  | HJoin _ _ JoinDiagnose | HLeave _ _ LeaveDiagnose
  | HUpdate _ (UpdateWrite _) => 1
  | _ => 0
  end.

(** Where the join of a caller who came second for the last spot can stand:
    before its atomic update, before its diagnosis, or answered with
    [AtCapacity]. *)
Inductive secondPc : JoinPc → Prop :=
| second_start : secondPc JoinStart
| second_diagnose : secondPc JoinDiagnose
| second_done : secondPc (JoinDone AtCapacity).

(** The configurations that two joins [reqA] and [reqB] for the one spot of
    the event [e] of the store [s] can reach: none has been served, or one of
    them holds the spot and the other came second. *)
Inductive lastSpot (envA envB : Env) (reqA reqB : Request) (s : Store)
    (e : Event) : list Handler → Store → Prop :=
| nobody_in :
    lastSpot envA envB reqA reqB s e
      [HJoin envA reqA JoinStart; HJoin envB reqB JoinStart] s
| first_in pcB :
    secondPc pcB →
    lastSpot envA envB reqA reqB s e
      [HJoin envA reqA (JoinDone (Joined (setAttendees [user_id reqA] e)));
       HJoin envB reqB pcB]
      (<[params_id reqA := setAttendees [user_id reqA] e]> s)
| second_in pcA :
    secondPc pcA →
    lastSpot envA envB reqA reqB s e
      [HJoin envA reqA pcA;
       HJoin envB reqB (JoinDone (Joined (setAttendees [user_id reqB] e)))]
      (<[params_id reqA := setAttendees [user_id reqB] e]> s).

(** Every capacity is at least one. *)
Definition capacityPositive (s : Store) : Prop :=
  ∀ id e, s !! id = Some e → (1 ≤ capacity e)%Z.

(** The handlers of the RSVP routes. *)
Definition isRsvp (h : Handler) : bool :=
  match h with
  | HJoin _ _ _ | HLeave _ _ _ => true
  | HUpdate _ _ => false
  end.

(** The stores the server can be in: it starts with no event; events are
    created, each under a new ObjectId, and deleted; between two such
    requests any number of join, leave and update requests are in flight
    together, each from its start, their database calls in any order. *)
Inductive reachable (isValid : string → bool) : Store → Prop :=
| reach_empty : reachable isValid ∅
| reach_create newId req s :
    isValid newId = true →
    reachable isValid s → reachable isValid (createEvent newId req s).2
| reach_delete req s :
    reachable isValid s → reachable isValid (deleteEvent isValid req s).2
| reach_run sched pool s :
    Forall (λ h, pending h = 2%nat) pool →
    reachable isValid s → reachable isValid (run isValid sched pool s).2.

(** ** The read routes *)

(** The virtuals of [eventSchema]. *)
Module Virtual.
Definition spotsRemaining (e : Event) : Z := (capacity e - attendeeCount e)%Z.
Definition isFull (e : Event) : bool := (capacity e <=? attendeeCount e)%Z.
Definition isPast (now : Z) (e : Event) : bool := (date e <? now)%Z.
End Virtual.

(** [Model.find(cond)]: the documents that satisfy [cond], each with its
    [_id], in the order of the collection. *)
Definition find (cond : Event → bool) (s : Store) : list (string * Event) :=
  filter (λ d, cond d.2 = true) (map_to_list s).

(** [Model.countDocuments(cond)] *)
Definition countDocuments (cond : Event → bool) (s : Store) : Z :=
  Z.of_nat (length (find cond s)).

(** [.sort({ date: 1 })]: ascending by date; documents of the same date
    stay in whatever order the sort leaves them. *)
Definition byDate (d1 d2 : string * Event) : Prop := (date d1.2 ≤ date d2.2)%Z.

#[global] Instance byDate_dec : RelDecision byDate.
Proof. intros d1 d2. unfold byDate. apply _. Defined.

Definition sortByDate (l : list (string * Event)) : list (string * Event) :=
  merge_sort byDate l.

(** The replies of the list routes:
    [200 { success: true, count: events.length, events }], or
    [500 { message, error }] from the [catch] block. *)
Inductive Listing :=
| Listed (count : Z) (events : list (string * Event))
| ListingError (message : string) (error : Thrown).

Definition listed (events : list (string * Event)) : Listing :=
  Listed (Z.of_nat (length events)) events.

(** The events of a listing; none for the reply of the [catch] block. *)
Definition eventsOf (l : Listing) : list (string * Event) :=
  match l with
  | Listed _ events => events
  | ListingError _ _ => []
  end.

(** [getMyRsvps]:
    [Event.find({ attendees: userId, isActive: true }).sort({ date: 1 })]. *)
Definition getMyRsvps (env : Env) (req : Request) (s : Store) : Listing :=
  match fault env with
  | Some err => ListingError "Error fetching your RSVPs" (DriverError err)
  | None =>
      listed (sortByDate
                (find (λ e, attending (user_id req) e
                            && bool_decide (isActive e = true)) s))
  end.

(** [getMyEvents]: [Event.find({ creator: req.user.id }).sort({ date: 1 })]. *)
Definition getMyEvents (env : Env) (req : Request) (s : Store) : Listing :=
  match fault env with
  | Some err => ListingError "Error fetching your events" (DriverError err)
  | None =>
      listed (sortByDate
                (find (λ e, bool_decide (creator e = user_id req)) s))
  end.

(** The replies of [checkRsvpStatus]:
    [200 { success: true, isAttending, isCreator, spotsRemaining, isFull }],
    [404 { message: 'Event not found' }], or [500 { message, error }]. *)
Inductive RsvpStatus :=
| Status (isAttending isCreator : bool) (spotsRemaining : Z) (isFull : bool)
| StatusNotFound
| StatusError (message : string) (error : Thrown).

(** The replies of the route [/dashboard-stats]:
    [200 { success: true, stats: { totalCreated, totalRsvps, upcomingCreated,
    upcomingRsvps } }], or [500 { message, error }]. *)
Inductive Dashboard :=
| Stats (totalCreated totalRsvps upcomingCreated upcomingRsvps : Z)
| StatsError (message : string) (error : Thrown).

(** The route [/dashboard-stats]: four [Event.countDocuments]. *)
Definition dashboardStats (env : Env) (req : Request) (s : Store) : Dashboard :=
  match fault env with
  | Some err => StatsError "Error fetching dashboard stats" (DriverError err)
  | None =>
      Stats
        (countDocuments (λ e, bool_decide (creator e = user_id req)) s)
        (countDocuments (attending (user_id req)) s)
        (countDocuments (λ e, bool_decide (creator e = user_id req)
                              && (now env <=? date e)%Z) s)
        (countDocuments (λ e, attending (user_id req) e
                              && (now env <=? date e)%Z) s)
  end.

Section ReadRoutes.

Variable isValid : string → bool.

(** [getEvent]: [Event.findById(req.params.id)]; the reply
    [200 { success: true, event }] has no message. *)
Definition getEvent (env : Env) (req : Request) (s : Store) : Response :=
  if negb (isValid (params_id req))
  then ServerError "Error fetching event" (CastError (params_id req))
  else match fault env with
       | Some err => ServerError "Error fetching event" (DriverError err)
       | None =>
           match findById s (params_id req) with
           | None => NotFound
           | Some event =>
               {| status := 200; success := true; message := "";
                  event := Some event; spotsRemaining := None; error := None |}
           end
       end.

(** [checkRsvpStatus] *)
Definition checkRsvpStatus (env : Env) (req : Request) (s : Store)
    : RsvpStatus :=
  if negb (isValid (params_id req))
  then StatusError "Error checking RSVP status" (CastError (params_id req))
  else match fault env with
       | Some err =>
           StatusError "Error checking RSVP status" (DriverError err)
       | None =>
           match findById s (params_id req) with
           | None => StatusNotFound
           | Some event =>
               Status (bool_decide (user_id req ∈ attendees event))
                      (bool_decide (creator event = user_id req))
                      (capacity event - attendeeCount event)%Z
                      (capacity event <=? attendeeCount event)%Z
           end
       end.

End ReadRoutes.

(** ** The authentication middleware *)

(** [s.split(sep)] for a separator of one character. *)
Fixpoint split (sep : ascii) (s : string) : list string :=
  match s with
  | EmptyString => [EmptyString]
  | String c s' =>
      if Ascii.eqb c sep then EmptyString :: split sep s'
      else match split sep s' with
           | piece :: rest => String c piece :: rest
           | [] => [String c EmptyString]
           end
  end.

(** The token of a request:
    [authorization && authorization.startsWith('Bearer')] and then
    [authorization.split(' ')[1]], which may be [undefined]. *)
Definition bearerToken (authorization : option string) : option string :=
  match truthy authorization with
  | Some header =>
      if String.prefix "Bearer" header then split " " header !! 1%nat
      else None
  | None => None
  end.

(** The header the client sends with a token:
    [api.defaults.headers.common['Authorization'] = `Bearer ${token}`]. *)
Definition authorizationHeader (token : string) : string :=
  String.append "Bearer " token.

(** What [jwt.verify(token, process.env.JWT_SECRET)] gives: the payload,
    which holds the id of a user, or one of the errors it throws. *)
Inductive Verified :=
| Decoded (id : string)
| JsonWebTokenError
| TokenExpiredError
| OtherJwtError.

(** What a middleware does with a request: it calls [next()], with
    [req.user] set or not, or it answers. *)
Inductive Passed (User : Type) :=
| Next (user : option User)
| Answered (r : Response).
Arguments Next {User} user.
Arguments Answered {User} r.

(** [.select('title date location image category')] of a document. *)
Module Summary.
Record t := {
  title : string;
  date : Z;
  location : string;
  image : Image;
  category : string
}.
End Summary.

Definition summary (e : Event) : Summary.t :=
  {| Summary.title := title e; Summary.date := date e;
     Summary.location := location e; Summary.image := image e;
     Summary.category := category e |}.

(** The replies of the route [/users/:id]:
    [200 { success: true, user, upcomingEvents }] with the public fields of
    the user document, [404 { message: 'User not found' }], or
    [500 { message, error }]. *)
Inductive Profile (User : Type) :=
| ProfileOf (user : User) (upcomingEvents : list (string * Summary.t))
| ProfileNotFound
| ProfileError (message : string) (error : Thrown).
Arguments ProfileOf {User} user upcomingEvents.
Arguments ProfileNotFound {User}.
Arguments ProfileError {User} message error.

Section Auth.

(** The user documents, of the model [User]; [jwt.verify] with the secret of
    the server; [ObjectId.isValid]. *)
Variable User : Type.
Variable verify : string → Verified.
Variable isValid : string → bool.

(** [User.findById(id)]: the document or [null], or what it throws: a
    [CastError] for a string that is no ObjectId, an error of the driver. *)
Definition findUser (env : Env) (users : gmap string User) (id : string)
    : Thrown + option User :=
  if negb (isValid id) then inl (CastError id)
  else match fault env with
       | Some err => inl (DriverError err)
       | None => inr (users !! id)
       end.

(** [protect] *)
Definition protect (env : Env) (authorization : option string)
    (users : gmap string User) : Passed User :=
  match truthy (bearerToken authorization) with
  | None => Answered (reply 401 "Not authorized to access this route")
  | Some token =>
      match verify token with
      | Decoded id =>
          match findUser env users id with
          | inr (Some user) => Next (Some user)
          | inr None => Answered (reply 401 "User not found")
          | inl _ => Answered (reply 401 "Not authorized to access this route")
          end
      | JsonWebTokenError => Answered (reply 401 "Invalid token")
      | TokenExpiredError =>
          Answered (reply 401 "Token expired, please login again")
      | OtherJwtError =>
          Answered (reply 401 "Not authorized to access this route")
      end
  end.

(** [optionalAuth] *)
Definition optionalAuth (env : Env) (authorization : option string)
    (users : gmap string User) : Passed User :=
  match truthy (bearerToken authorization) with
  | None => Next None
  | Some token =>
      match verify token with
      | Decoded id =>
          match findUser env users id with
          | inr (Some user) => Next (Some user)
          | _ => Next None
          end
      | _ => Next None
      end
  end.

(** The route [/users/:id]: [User.findById(req.params.id)], then
    [Event.find({ creator: req.params.id, isActive: true,
                  date: { $gte: new Date() } })
       .select(...).sort({ date: 1 }).limit(5)]. *)
Definition userProfile (env : Env) (req : Request) (users : gmap string User)
    (s : Store) : Profile User :=
  match findUser env users (params_id req) with
  | inl err => ProfileError "Error fetching user profile" err
  | inr None => ProfileNotFound
  | inr (Some user) =>
      ProfileOf user
        (prod_map id summary
           <$> take 5
                 (sortByDate
                    (find (λ e, bool_decide (creator e = params_id req)
                                && bool_decide (isActive e = true)
                                && (now env <=? date e)%Z) s)))
  end.

End Auth.

(** ** Joins in flight together *)

(** The request of a handler. *)
Definition handlerReq (h : Handler) : Request :=
  match h with
  | HJoin _ req _ | HLeave _ req _ | HUpdate req _ => req
  end.

(** A pool of joins, none of them started. *)
Definition joinPool (reqs : list (Env * Request)) : list Handler :=
  (λ er : Env * Request, HJoin er.1 er.2 JoinStart) <$> reqs.

(** A handler that has answered with a success; a join whose atomic update
    did not apply. *)
Definition succeeded (h : Handler) : bool :=
  match response h with
  | Some r => success r
  | None => false
  end.

Definition refused (h : Handler) : bool :=
  match h with
  | HJoin _ _ JoinDiagnose => true
  | HJoin _ _ (JoinDone r) => negb (success r)
  | _ => false
  end.

(** The handlers of a pool that have answered with a success. *)
Definition successes (pool : list Handler) : nat :=
  length (filter (λ h, succeeded h = true) pool).

(** A pool of joins to the event [eventId], without faults of the driver,
    of distinct users who were no attendees of the event [e0] at the
    start. *)
Definition joinsTo (eventId : string) (e0 : Event) (pool : list Handler)
    : Prop :=
  (∀ i h, pool !! i = Some h →
     ∃ env req pc, h = HJoin env req pc ∧ params_id req = eventId
                   ∧ fault env = None ∧ user_id req ∉ attendees e0)
  ∧ (∀ i j hi hj, pool !! i = Some hi → pool !! j = Some hj →
       user_id (handlerReq hi) = user_id (handlerReq hj) → i = j).

(** What holds of the event while such a pool runs: it has its capacity of
    the start and is within it; its attendees are those of the start and
    one more for every join that succeeded; and once a join was refused the
    event is full. *)
Definition filling (eventId : string) (e0 : Event) (pool : list Handler)
    (s : Store) : Prop :=
  ∃ e, s !! eventId = Some e
       ∧ capacity e = capacity e0
       ∧ length (attendees e)
         = (length (attendees e0) + successes pool)%nat
       ∧ (attendeeCount e ≤ capacity e)%Z
       ∧ (∀ u, u ∈ attendees e →
            u ∈ attendees e0
            ∨ ∃ i h, pool !! i = Some h ∧ succeeded h = true
                     ∧ user_id (handlerReq h) = u)
       ∧ ((∃ i h, pool !! i = Some h ∧ refused h = true) →
          (capacity e ≤ attendeeCount e)%Z).

(** What [joinEvent] does with the one document it addresses: its response
    and, when it writes, the document it writes. *)
Definition joinOn (valid : bool) (env : Env) (req : Request)
    (doc : option Event) : Response * option Event :=
  if negb valid then (InvalidId, None)
  else match fault env with
       | Some err => (joinCatch err, None)
       | None =>
           match doc with
           | Some e =>
               if rsvpCond (user_id req) e
               then (Joined (setAttendees (attendees e ++ [user_id req]) e),
                     Some (setAttendees (attendees e ++ [user_id req]) e))
               else (joinDiagnose env req {[ params_id req := e ]}, None)
           | None => (NotFound, None)
           end
       end.

(** ** Worked data *)

(** Twenty-four hexadecimal digits, the ObjectId strings that
    [ObjectId.isValid] accepts. *)
Definition isHexDigit (c : ascii) : bool :=
  let n := nat_of_ascii c in
  ((48 <=? n) && (n <=? 57) || (97 <=? n) && (n <=? 102)
   || (65 <=? n) && (n <=? 70))%nat.

Definition isHex24 (id : string) : bool :=
  (String.length id =? 24)%nat
  && forallb isHexDigit (String.list_ascii_of_string id).

Definition party : string := "650000000000000000000001".
Definition owner : string := "650000000000000000000010".
Definition alice : string := "65000000000000000000000a".
Definition bob : string := "65000000000000000000000b".

(** An event scheduled at time 2000, owned by [owner]. *)
Definition eventWith (cap : Z) (att : list string) : Event :=
  {| title := "Launch party"; description := "Drinks and demos";
     date := 2000; time := "18:00"; location := "Atrium"; capacity := cap;
     category := "social"; image := {| url := ""; publicId := "" |};
     creator := owner; attendees := att; isActive := true |}.

Definition storeWith (cap : Z) (att : list string) : Store :=
  {[ party := eventWith cap att ]}.

Definition rsvp (userId : string) : Request :=
  {| params_id := party; user_id := userId;
     body := {| Body.title := None; Body.description := None;
                Body.date := Absent; Body.time := None;
                Body.location := None; Body.capacity := Absent;
                Body.category := None; Body.image := None |};
     file := None |}.

(** The same event after a soft delete. *)
Definition inactive (e : Event) : Event :=
  {| title := title e; description := description e; date := date e;
     time := time e; location := location e; capacity := capacity e;
     category := category e; image := image e; creator := creator e;
     attendees := attendees e; isActive := false |}.

(** The owner's request that creates the event. *)
Definition creation (cap : Z) : Request :=
  {| params_id := ""; user_id := owner;
     body := {| Body.title := Some "Launch party";
                Body.description := Some "Drinks and demos";
                Body.date := Value 2000%Z; Body.time := Some "18:00";
                Body.location := Some "Atrium"; Body.capacity := Value cap;
                Body.category := Some "social"; Body.image := None |};
     file := None |}.

(** The owner's request to set the capacity of the event. *)
Definition setCapacity (cap : Z) : Request :=
  {| params_id := party; user_id := owner;
     body := {| Body.title := None; Body.description := None;
                Body.date := Absent; Body.time := None;
                Body.location := None; Body.capacity := Value cap;
                Body.category := None; Body.image := None |};
     file := None |}.

(** A second event, a week later, owned by [alice], and the store with
    both. *)
Definition meetup : string := "650000000000000000000002".

Definition meetupWith (cap : Z) (att : list string) : Event :=
  {| title := "Reading group"; description := "Chapter seven";
     date := 9000; time := "19:30"; location := "Library"; capacity := cap;
     category := "other"; image := {| url := ""; publicId := "" |};
     creator := alice; attendees := att; isActive := true |}.

Definition twoEvents : Store :=
  {[ party := eventWith 2 [bob]; meetup := meetupWith 1 [] ]}.

Definition carol : string := "65000000000000000000000c".

Definition rsvpTo (eventId userId : string) : Request :=
  {| params_id := eventId; user_id := userId;
     body := body (rsvp userId); file := None |}.

(** Tokens as a test double of [jwt.verify] would decode them, and the
    users of the store, by name. *)
Definition verifyDemo (token : string) : Verified :=
  if String.eqb token "token-of-alice" then Decoded alice
  else if String.eqb token "token-of-nobody" then Decoded party
  else if String.eqb token "old-token" then TokenExpiredError
  else JsonWebTokenError.

Definition people : gmap string string :=
  {[ alice := "Alice"; bob := "Bob"; owner := "Olga" ]}.

(** A clock before the event, a clock after it; no fault of the driver. *)
Definition before : Env := {| now := 1000; fault := None |}.
Definition after : Env := {| now := 3000; fault := None |}.

(** * Properties *)

(** ** The atomic updates *)

Lemma rsvpCond_spec userId e :
  rsvpCond userId e = true
  ↔ (userId ∉ attendees e) ∧ (attendeeCount e < capacity e)%Z.
Proof.
  unfold rsvpCond, attending.
  rewrite andb_true_iff, negb_true_iff, bool_decide_eq_false, Z.ltb_lt.
  reflexivity.
Qed.

Lemma joinApplies_cond s eventId userId :
  joinApplies s eventId userId
  ↔ ∃ e, s !! eventId = Some e ∧ rsvpCond userId e = true.
Proof.
  unfold joinApplies; split; intros (e & He & H); exists e; split; auto.
  - apply rsvpCond_spec; auto.
  - apply rsvpCond_spec in H; tauto.
Qed.

Lemma addToSet_fresh userId l : userId ∉ l → addToSet userId l = l ++ [userId].
Proof. intros H. unfold addToSet. by rewrite bool_decide_eq_false_2. Qed.

Lemma atomicRSVP_applied s eventId userId e :
  s !! eventId = Some e → rsvpCond userId e = true →
  atomicRSVP s eventId userId
  = (Some (setAttendees (attendees e ++ [userId]) e),
     <[eventId := setAttendees (attendees e ++ [userId]) e]> s).
Proof.
  intros He Hc. unfold atomicRSVP, findOneAndUpdate. rewrite He, Hc.
  apply rsvpCond_spec in Hc as [Hn _]. by rewrite addToSet_fresh.
Qed.

Lemma atomicRSVP_not_applied s eventId userId :
  ¬ joinApplies s eventId userId → atomicRSVP s eventId userId = (None, s).
Proof.
  intros Hn. unfold atomicRSVP, findOneAndUpdate.
  destruct (s !! eventId) as [e|] eqn:He; [|done].
  destruct (rsvpCond userId e) eqn:Hc; [|done].
  destruct Hn. apply joinApplies_cond. eauto.
Qed.

Lemma atomicRemoveRSVP_applied s eventId userId e :
  s !! eventId = Some e → userId ∈ attendees e →
  atomicRemoveRSVP s eventId userId
  = (Some (setAttendees (pull userId (attendees e)) e),
     <[eventId := setAttendees (pull userId (attendees e)) e]> s).
Proof.
  intros He Hin. unfold atomicRemoveRSVP, findOneAndUpdate, attending.
  by rewrite He, bool_decide_eq_true_2.
Qed.

Lemma atomicRemoveRSVP_not_applied s eventId userId :
  ¬ leaveApplies s eventId userId →
  atomicRemoveRSVP s eventId userId = (None, s).
Proof.
  intros Hn. unfold atomicRemoveRSVP, findOneAndUpdate, attending.
  destruct (s !! eventId) as [e|] eqn:He; [|done].
  case_bool_decide; [|done].
  destruct Hn. exists e. auto.
Qed.

Lemma pull_not_elem userId l : userId ∉ pull userId l.
Proof. unfold pull. rewrite list_elem_of_filter. tauto. Qed.

Lemma pull_length userId l : (length (pull userId l) ≤ length l)%nat.
Proof. unfold pull. apply length_filter. Qed.

Lemma validKeys_insert isValid s id e :
  validKeys isValid s → isValid id = true → validKeys isValid (<[id := e]> s).
Proof.
  intros Hk Hid k e' H. destruct (decide (id = k)) as [<-|Hne]; [done|].
  rewrite lookup_insert_ne in H by done. eauto.
Qed.

Lemma validKeys_storeWith cap att : validKeys isHex24 (storeWith cap att).
Proof.
  intros id e H. unfold storeWith in H.
  apply lookup_singleton_Some in H as [<- _]. reflexivity.
Qed.

(** ** The four ways through [joinEvent] and [leaveEvent] *)

Section Controller.

Variable isValid : string → bool.

Lemma joinEvent_invalid env req s :
  isValid (params_id req) = false → joinEvent isValid env req s = (InvalidId, s).
Proof. intros H. unfold joinEvent, joinStep. by rewrite H. Qed.

Lemma joinEvent_fault env req s err :
  isValid (params_id req) = true → fault env = Some err →
  joinEvent isValid env req s = (joinCatch err, s).
Proof. intros H Hf. unfold joinEvent, joinStep. by rewrite H, Hf. Qed.

Lemma joinEvent_applied env req s e :
  isValid (params_id req) = true → fault env = None →
  s !! params_id req = Some e → rsvpCond (user_id req) e = true →
  joinEvent isValid env req s
  = (Joined (setAttendees (attendees e ++ [user_id req]) e),
     <[params_id req := setAttendees (attendees e ++ [user_id req]) e]> s).
Proof.
  intros H Hf He Hc. unfold joinEvent, joinStep.
  by rewrite H, Hf, (atomicRSVP_applied _ _ _ e).
Qed.

Lemma joinEvent_not_applied env req s :
  isValid (params_id req) = true → fault env = None →
  ¬ joinApplies s (params_id req) (user_id req) →
  joinEvent isValid env req s = (joinDiagnose env req s, s).
Proof.
  intros H Hf Hn. unfold joinEvent, joinStep.
  by rewrite H, Hf, atomicRSVP_not_applied.
Qed.

Lemma leaveEvent_invalid env req s :
  isValid (params_id req) = false →
  leaveEvent isValid env req s = (InvalidId, s).
Proof. intros H. unfold leaveEvent, leaveStep. by rewrite H. Qed.

Lemma leaveEvent_fault env req s err :
  isValid (params_id req) = true → fault env = Some err →
  leaveEvent isValid env req s = (leaveCatch err, s).
Proof. intros H Hf. unfold leaveEvent, leaveStep. by rewrite H, Hf. Qed.

Lemma leaveEvent_applied env req s e :
  isValid (params_id req) = true → fault env = None →
  s !! params_id req = Some e → user_id req ∈ attendees e →
  leaveEvent isValid env req s
  = (Left (setAttendees (pull (user_id req) (attendees e)) e),
     <[params_id req := setAttendees (pull (user_id req) (attendees e)) e]> s).
Proof.
  intros H Hf He Hin. unfold leaveEvent, leaveStep.
  by rewrite H, Hf, (atomicRemoveRSVP_applied _ _ _ e).
Qed.

Lemma leaveEvent_not_applied env req s :
  isValid (params_id req) = true → fault env = None →
  ¬ leaveApplies s (params_id req) (user_id req) →
  leaveEvent isValid env req s = (leaveDiagnose req s, s).
Proof.
  intros H Hf Hn. unfold leaveEvent, leaveStep.
  by rewrite H, Hf, atomicRemoveRSVP_not_applied.
Qed.

(** Whether a join applies is decided by the store alone. *)
Lemma joinApplies_dec s eventId userId :
  joinApplies s eventId userId ∨ ¬ joinApplies s eventId userId.
Proof.
  destruct (s !! eventId) as [e|] eqn:He.
  - destruct (rsvpCond userId e) eqn:Hc.
    + left. apply joinApplies_cond. eauto.
    + right. intros (e' & He' & H)%joinApplies_cond. congruence.
  - right. intros (e' & He' & _). congruence.
Qed.

Lemma leaveApplies_dec s eventId userId :
  leaveApplies s eventId userId ∨ ¬ leaveApplies s eventId userId.
Proof.
  destruct (s !! eventId) as [e|] eqn:He.
  - destruct (decide (userId ∈ attendees e)).
    + left. exists e. auto.
    + right. intros (e' & He' & H). congruence.
  - right. intros (e' & He' & _). congruence.
Qed.

(** No branch of the diagnosis reports a success or an error. *)
Lemma joinDiagnose_cases env req s :
  joinDiagnose env req s
  ∈ [NotFound; EventEnded; CreatorImplicitlyAttending; AlreadyJoined;
     AtCapacity; TransientConflict].
Proof.
  unfold joinDiagnose. destruct (findById s (params_id req)) as [e|];
    repeat case_match; set_solver.
Qed.

Lemma joinDiagnose_failure env req s :
  success (joinDiagnose env req s) = false
  ∧ isErrorResponse (joinDiagnose env req s) = false.
Proof.
  pose proof (joinDiagnose_cases env req s) as H.
  repeat (apply elem_of_cons in H as [->|H]; [split; reflexivity|]).
  by apply elem_of_nil in H.
Qed.

Lemma leaveDiagnose_failure req s :
  success (leaveDiagnose req s) = false
  ∧ isErrorResponse (leaveDiagnose req s) = false.
Proof. unfold leaveDiagnose. destruct (findById _ _); split; reflexivity. Qed.


(** A join leaves the store as it was, or appends the caller to the
    attendees of the event, whose filter held. *)
Lemma joinEvent_cases env req s :
  ((joinEvent isValid env req s).2 = s
   ∧ success (joinEvent isValid env req s).1 = false)
  ∨ ∃ e, s !! params_id req = Some e ∧ rsvpCond (user_id req) e = true
         ∧ isValid (params_id req) = true ∧ fault env = None
         ∧ joinEvent isValid env req s
           = (Joined (setAttendees (attendees e ++ [user_id req]) e),
              <[params_id req :=
                  setAttendees (attendees e ++ [user_id req]) e]> s).
Proof.
  destruct (isValid (params_id req)) eqn:Hv;
    [|left; by rewrite joinEvent_invalid].
  destruct (fault env) as [err|] eqn:Hf.
  { left. rewrite (joinEvent_fault _ _ _ err) by done. split; [done|].
    unfold joinCatch. by case_match. }
  destruct (joinApplies_dec s (params_id req) (user_id req)) as [Ha|Hn].
  - apply joinApplies_cond in Ha as (e & He & Hc). right. exists e.
    repeat split; try done. by apply joinEvent_applied.
  - left. rewrite joinEvent_not_applied by done. split; [done|].
    apply joinDiagnose_failure.
Qed.

Lemma leaveEvent_cases env req s :
  ((leaveEvent isValid env req s).2 = s
   ∧ success (leaveEvent isValid env req s).1 = false)
  ∨ ∃ e, s !! params_id req = Some e ∧ user_id req ∈ attendees e
         ∧ isValid (params_id req) = true ∧ fault env = None
         ∧ leaveEvent isValid env req s
           = (Left (setAttendees (pull (user_id req) (attendees e)) e),
              <[params_id req :=
                  setAttendees (pull (user_id req) (attendees e)) e]> s).
Proof.
  destruct (isValid (params_id req)) eqn:Hv;
    [|left; by rewrite leaveEvent_invalid].
  destruct (fault env) as [err|] eqn:Hf.
  { left. by rewrite (leaveEvent_fault _ _ _ err). }
  destruct (leaveApplies_dec s (params_id req) (user_id req)) as [Ha|Hn].
  - destruct Ha as (e & He & Hc). right. exists e.
    repeat split; try done. by apply leaveEvent_applied.
  - left. rewrite leaveEvent_not_applied by done. split; [done|].
    apply leaveDiagnose_failure.
Qed.

(** C5.  When the precondition of a join or of a leave fails, the atomic
    update returns [null] and the store, with every field of every event, is
    as before; without a fault of the driver the response is then one of the
    [400]/[404] replies and not a response of the [catch] block.  A response
    of the [catch] block is given only on a fault of the driver. *)
Theorem not_applied_no_mutation env req s :
  (¬ joinApplies s (params_id req) (user_id req) →
     atomicRSVP s (params_id req) (user_id req) = (None, s)
     ∧ (joinEvent isValid env req s).2 = s
     ∧ (fault env = None →
          success (joinEvent isValid env req s).1 = false
          ∧ isErrorResponse (joinEvent isValid env req s).1 = false))
  ∧ (¬ leaveApplies s (params_id req) (user_id req) →
       atomicRemoveRSVP s (params_id req) (user_id req) = (None, s)
       ∧ (leaveEvent isValid env req s).2 = s
       ∧ (fault env = None →
            success (leaveEvent isValid env req s).1 = false
            ∧ isErrorResponse (leaveEvent isValid env req s).1 = false))
  ∧ (isErrorResponse (joinEvent isValid env req s).1 = true
     ∨ isErrorResponse (leaveEvent isValid env req s).1 = true →
     is_Some (fault env)).
Proof.
  split; [|split].
  - intros Hn. split; [by apply atomicRSVP_not_applied|].
    destruct (isValid (params_id req)) eqn:Hv.
    + destruct (fault env) as [err|] eqn:Hf.
      * rewrite (joinEvent_fault _ _ _ err) by done. done.
      * rewrite joinEvent_not_applied by done. split; [done|].
        intros _. apply joinDiagnose_failure.
    + rewrite joinEvent_invalid by done. done.
  - intros Hn. split; [by apply atomicRemoveRSVP_not_applied|].
    destruct (isValid (params_id req)) eqn:Hv.
    + destruct (fault env) as [err|] eqn:Hf.
      * rewrite (leaveEvent_fault _ _ _ err) by done. done.
      * rewrite leaveEvent_not_applied by done. split; [done|].
        intros _. apply leaveDiagnose_failure.
    + rewrite leaveEvent_invalid by done. done.
  - destruct (fault env) as [err|] eqn:Hf; [eauto|]. intros [H|H]; exfalso.
    + destruct (isValid (params_id req)) eqn:Hv.
      * destruct (joinApplies_dec s (params_id req) (user_id req)) as [Ha|Hn].
        -- apply joinApplies_cond in Ha as (e & He & Hc).
           rewrite (joinEvent_applied _ _ _ e) in H by done. done.
        -- rewrite joinEvent_not_applied in H by done.
           destruct (joinDiagnose_failure env req s). simpl in H. congruence.
      * rewrite joinEvent_invalid in H by done. done.
    + destruct (isValid (params_id req)) eqn:Hv.
      * destruct (leaveApplies_dec s (params_id req) (user_id req)) as [Ha|Hn].
        -- destruct Ha as (e & He & Hc).
           rewrite (leaveEvent_applied _ _ _ e) in H by done. done.
        -- rewrite leaveEvent_not_applied in H by done.
           destruct (leaveDiagnose_failure req s). simpl in H. congruence.
      * rewrite leaveEvent_invalid in H by done. done.
Qed.

(** The nested [if]s of the diagnosis pick the first cause that holds. *)
Lemma joinDiagnose_classify env req s :
  joinDiagnose env req s
  = classifyJoinFailure (now env) (user_id req) (findById s (params_id req)).
Proof.
  unfold joinDiagnose, classifyJoinFailure, joinFailureCauses.
  destruct (findById s (params_id req)) as [e|]; [|reflexivity]. simpl.
  destruct (Z.ltb_spec (date e) (now env)).
  { by rewrite bool_decide_eq_true_2. }
  rewrite (bool_decide_eq_false_2 (date e < now env)%Z) by lia.
  case_bool_decide; [done|]. case_bool_decide; [done|].
  destruct (Z.leb_spec (capacity e) (attendeeCount e)).
  - rewrite bool_decide_eq_true_2 by lia. done.
  - rewrite bool_decide_eq_false_2 by lia. done.
Qed.





(** ** Membership is a set *)

Lemma occurrences_app userId l1 l2 :
  occurrences userId (l1 ++ l2)
  = (occurrences userId l1 + occurrences userId l2)%nat.
Proof. unfold occurrences. by rewrite filter_app, length_app. Qed.

Lemma occurrences_not_elem userId l : userId ∉ l → occurrences userId l = 0%nat.
Proof.
  unfold occurrences. induction l as [|a l IH]; intros Hn; [done|].
  apply not_elem_of_cons in Hn as [Hne Hn]. rewrite filter_cons.
  case_decide; [congruence | auto].
Qed.

Lemma occurrences_singleton userId a :
  occurrences userId [a] = if decide (a = userId) then 1%nat else 0%nat.
Proof. unfold occurrences. rewrite filter_cons. by case_decide. Qed.

Lemma members_insert s id e id' :
  members (<[id := e]> s) id'
  = if decide (id = id') then attendees e else members s id'.
Proof.
  unfold members. case_decide as H.
  - subst. by rewrite lookup_insert_eq.
  - by rewrite lookup_insert_ne.
Qed.

(** One join keeps every user listed at most once in every event. *)
Lemma joinEvent_occurrences env req s userId eventId :
  (occurrences userId (members s eventId) ≤ 1)%nat →
  (occurrences userId (members (joinEvent isValid env req s).2 eventId) ≤ 1)%nat.
Proof.
  intros H.
  destruct (joinEvent_cases env req s) as [[-> _]|(e & He & Hc & _ & _ & ->)];
    [done|].
  simpl. rewrite members_insert. case_decide as Hid; [|done]. subst eventId.
  simpl. unfold members in H. rewrite He in H.
  rewrite occurrences_app, occurrences_singleton.
  case_decide as Hu; [|lia]. subst userId.
  apply rsvpCond_spec in Hc as [Hn _].
  rewrite occurrences_not_elem by done. lia.
Qed.

Lemma joinAll_occurrences reqs s userId eventId :
  (occurrences userId (members s eventId) ≤ 1)%nat →
  (occurrences userId (members (joinAll isValid reqs s).2 eventId) ≤ 1)%nat.
Proof.
  revert s. induction reqs as [|[env req] reqs IH]; intros s H; [done|].
  simpl. pose proof (joinEvent_occurrences env req s userId eventId H) as H1.
  destruct (joinEvent isValid env req s) as [r s1]. simpl in H1.
  specialize (IH s1 H1). destruct (joinAll isValid reqs s1) as [rs s2].
  done.
Qed.

Lemma occurrences_pull userId leaver l :
  (occurrences userId (pull leaver l) ≤ occurrences userId l)%nat.
Proof.
  unfold occurrences, pull. induction l as [|a l IH]; [done|].
  rewrite !filter_cons. repeat case_decide; simpl;
    rewrite ?filter_cons; repeat case_decide; simpl; try done; lia.
Qed.

Lemma atomicRSVP_occurrences s joining eventId' userId eventId :
  (occurrences userId (members s eventId) ≤ 1)%nat →
  (occurrences userId (members (atomicRSVP s eventId' joining).2 eventId)
   ≤ 1)%nat.
Proof.
  intros H. unfold atomicRSVP, findOneAndUpdate.
  destruct (s !! eventId') as [e|] eqn:He; [|done].
  destruct (rsvpCond joining e) eqn:Hc; [|done]. simpl.
  rewrite members_insert. case_decide as Hid; [|done]. subst eventId'.
  simpl. unfold members in H. rewrite He in H.
  apply rsvpCond_spec in Hc as [Hn _]. rewrite addToSet_fresh by done.
  rewrite occurrences_app, occurrences_singleton.
  case_decide as Hu; [|lia]. subst joining.
  rewrite occurrences_not_elem by done. lia.
Qed.

(** Every database call of every handler keeps every user listed at most
    once in every event. *)
Lemma handlerStep_occurrences h s userId eventId :
  (occurrences userId (members s eventId) ≤ 1)%nat →
  (occurrences userId (members (handlerStep isValid h s).2 eventId) ≤ 1)%nat.
Proof.
  intros H. destruct h as [env req pc|env req pc|req pc]; simpl.
  - destruct pc; simpl; [|done..].
    destruct (isValid (params_id req)); simpl; [|done].
    destruct (fault env); [done|].
    pose proof (atomicRSVP_occurrences s (user_id req) (params_id req)
                  userId eventId H).
    by destruct (atomicRSVP s (params_id req) (user_id req)) as [[?|] ?].
  - destruct pc; simpl; [|done..].
    destruct (isValid (params_id req)); simpl; [|done].
    destruct (fault env); [done|].
    unfold atomicRemoveRSVP, findOneAndUpdate.
    destruct (s !! params_id req) as [e|] eqn:He; [|done].
    destruct (attending (user_id req) e); [|done]. simpl.
    rewrite members_insert. case_decide as Hid; [|done]. subst eventId.
    simpl. unfold members in H. rewrite He in H.
    pose proof (occurrences_pull userId (user_id req) (attendees e)). lia.
  - destruct pc as [|u|r]; simpl; [| |done].
    + by destruct (updateRead isValid req s).
    + unfold updateWrite. destruct (updateValidators u); [done|].
      destruct (s !! params_id req) as [e|] eqn:He; [|done]. simpl.
      rewrite members_insert. case_decide as Hid; [|done]. subst eventId.
      simpl. unfold members in H. by rewrite He in H.
Qed.

Lemma run_occurrences sched : ∀ pool s userId eventId,
  (occurrences userId (members s eventId) ≤ 1)%nat →
  (occurrences userId (members (run isValid sched pool s).2 eventId) ≤ 1)%nat.
Proof.
  induction sched as [|i sched IH]; intros pool s userId eventId H; [done|].
  simpl. destruct (pool !! i) as [h|]; [|by apply IH].
  pose proof (handlerStep_occurrences h s userId eventId H).
  destruct (handlerStep isValid h s) as [h' s']. by apply IH.
Qed.

(** C4.  A user who is listed at most once among the attendees of an event
    is listed at most once after any sequence of join requests, whatever
    the clock and the faults of the driver, in particular after repeated
    requests of that user for that event; and also when the requests are in
    flight together, under any schedule of their database calls.  After a
    join that succeeded the user is listed exactly once, and a second join of
    the same request right after it (without a fault of the driver) finds
    the user among the attendees: its atomic update does not apply, the
    store stays as it is, and the response is a reply of the diagnosis, not
    one of the [catch] block. *)
Theorem no_duplicate_membership userId eventId :
  (∀ reqs s,
     (occurrences userId (members s eventId) ≤ 1)%nat →
     (occurrences userId (members (joinAll isValid reqs s).2 eventId) ≤ 1)%nat)
  ∧ (∀ sched pool s,
       (occurrences userId (members s eventId) ≤ 1)%nat →
       (occurrences userId (members (run isValid sched pool s).2 eventId)
        ≤ 1)%nat)
  ∧ (∀ env1 env2 req s r1 s1,
       user_id req = userId → params_id req = eventId →
       joinEvent isValid env1 req s = (r1, s1) → success r1 = true →
       fault env2 = None →
       occurrences userId (members s1 eventId) = 1%nat
       ∧ ¬ joinApplies s1 eventId userId
       ∧ atomicRSVP s1 eventId userId = (None, s1)
       ∧ (joinEvent isValid env2 req s1).2 = s1
       ∧ success (joinEvent isValid env2 req s1).1 = false
       ∧ isErrorResponse (joinEvent isValid env2 req s1).1 = false).
Proof.
  split; [intros reqs s; apply joinAll_occurrences|].
  split; [intros sched pool s; apply run_occurrences|].
  intros env1 env2 req s r1 s1 <- <- Hj Hs Hf2.
  destruct (joinEvent_cases env1 req s)
    as [[_ Hf]|(e & He & Hc & Hv & _ & Hj')].
  { rewrite Hj in Hf. simpl in Hf. congruence. }
  rewrite Hj' in Hj. injection Hj as <- <-.
  apply rsvpCond_spec in Hc as [Hn _].
  assert (Hnot : ¬ joinApplies
                     (<[params_id req :=
                          setAttendees (attendees e ++ [user_id req]) e]> s)
                     (params_id req) (user_id req)).
  { intros (e' & He' & Hn' & _). rewrite lookup_insert_eq in He'.
    injection He' as <-. simpl in Hn'. set_solver. }
  split; [|split; [done|]].
  - rewrite members_insert. rewrite decide_True by done. simpl.
    rewrite occurrences_app, occurrences_singleton, decide_True by done.
    rewrite occurrences_not_elem by done. done.
  - split; [by apply atomicRSVP_not_applied|].
    rewrite joinEvent_not_applied by done. split; [done|].
    apply joinDiagnose_failure.
Qed.

(** ** Handlers under a schedule *)

(** Every turn brings a handler closer to its response; a handler that has
    responded stays as it is, and so does the store. *)
Lemma handlerStep_pending h s :
  (pending (handlerStep isValid h s).1 ≤ pending h - 1)%nat.
Proof.
  destruct h as [env req pc|env req pc|req pc]; destruct pc; simpl;
    try lia.
  - destruct (isValid (params_id req)); simpl; [|lia].
    destruct (fault env); simpl; [lia|].
    destruct (atomicRSVP s (params_id req) (user_id req)) as [[e|] s'];
      simpl; lia.
  - destruct (isValid (params_id req)); simpl; [|lia].
    destruct (fault env); simpl; [lia|].
    destruct (atomicRemoveRSVP s (params_id req) (user_id req)) as [[e|] s'];
      simpl; lia.
  - destruct (updateRead isValid req s); simpl; lia.
  - destruct (updateWrite req updateData s); simpl; lia.
Qed.

Lemma turns_cons i j sched :
  turns i (j :: sched)
  = if decide (j = i) then S (turns i sched) else turns i sched.
Proof. unfold turns. rewrite filter_cons. by case_decide. Qed.

Lemma run_pending sched : ∀ pool s i h,
  pool !! i = Some h →
  ∃ h', (run isValid sched pool s).1 !! i = Some h'
        ∧ (pending h' ≤ pending h - turns i sched)%nat.
Proof.
  induction sched as [|j sched IH]; intros pool s i h Hi.
  { exists h. split; [done | unfold turns; simpl; lia]. }
  rewrite turns_cons. simpl.
  destruct (pool !! j) as [hj|] eqn:Hj.
  - destruct (handlerStep isValid hj s) as [hj' s'] eqn:Hs.
    destruct (decide (j = i)) as [->|Hne].
    + assert (hj = h) as -> by congruence.
      destruct (IH (<[i := hj']> pool) s' i hj') as (h' & Hh' & Hp).
      { apply list_lookup_insert_eq. by eapply lookup_lt_Some. }
      exists h'. split; [done|].
      pose proof (handlerStep_pending h s) as Hd. rewrite Hs in Hd.
      simpl in Hd. lia.
    + destruct (IH (<[j := hj']> pool) s' i h) as (h' & Hh' & Hp).
      { by rewrite list_lookup_insert_ne. }
      exists h'. split; [done|]. lia.
  - destruct (decide (j = i)) as [->|Hne]; [congruence|].
    destruct (IH pool s i h Hi) as (h' & Hh' & Hp).
    exists h'. split; [done|]. lia.
Qed.

Lemma pending_0_response h : pending h = 0%nat → is_Some (response h).
Proof.
  destruct h as [env req pc|env req pc|req pc]; destruct pc; simpl;
    intros; try lia; eauto.
Qed.

(** A handler that gets two turns has responded. *)
Lemma run_responds sched pool s i h :
  pool !! i = Some h → (2 ≤ turns i sched)%nat →
  ∃ h', (run isValid sched pool s).1 !! i = Some h' ∧ is_Some (response h').
Proof.
  intros Hi Ht. destruct (run_pending sched pool s i h Hi) as (h' & Hh' & Hp).
  exists h'. split; [done|]. apply pending_0_response.
  assert (pending h ≤ 2)%nat.
  { destruct h as [? ? pc|? ? pc|? pc]; destruct pc; simpl; lia. }
  lia.
Qed.

(** ** Two joins for the last spot *)

(** The first atomic update on an empty event of capacity one applies. *)
Lemma last_spot_first env req s e :
  isValid (params_id req) = true → fault env = None →
  s !! params_id req = Some e → capacity e = 1%Z → attendees e = [] →
  joinStep isValid env req JoinStart s
  = (JoinDone (Joined (setAttendees [user_id req] e)),
     <[params_id req := setAttendees [user_id req] e]> s).
Proof.
  intros Hv Hf He Hc Ha. unfold joinStep. rewrite Hv, Hf.
  rewrite (atomicRSVP_applied _ _ _ e), Ha; [done..|].
  apply rsvpCond_spec. unfold attendeeCount. rewrite Ha, Hc.
  split; [set_solver | simpl; lia].
Qed.

(** Once another user holds the only spot, a join that is neither late nor
    the creator's goes from its atomic update to the diagnosis and from
    there to [AtCapacity], and never touches the store. *)
Lemma last_spot_second env req s e holder pc :
  isValid (params_id req) = true → fault env = None →
  s !! params_id req = Some e → capacity e = 1%Z → attendees e = [holder] →
  holder ≠ user_id req →
  (now env ≤ date e)%Z → creator e ≠ user_id req →
  secondPc pc →
  ∃ pc', joinStep isValid env req pc s = (pc', s) ∧ secondPc pc'.
Proof.
  intros Hv Hf He Hc Ha Hne Hd Hcr Hpc. destruct Hpc; simpl.
  - rewrite Hv, Hf, atomicRSVP_not_applied; [eauto using secondPc|].
    intros (e' & He' & _ & Hlt). rewrite He in He'. injection He' as <-.
    unfold attendeeCount in Hlt. rewrite Ha, Hc in Hlt. simpl in Hlt. lia.
  - exists (JoinDone AtCapacity). split; [|constructor].
    unfold joinDiagnose, findById. rewrite He.
    destruct (Z.ltb_spec (date e) (now env)) as [Hlate|_]; [lia|].
    rewrite bool_decide_eq_false_2 by done.
    rewrite bool_decide_eq_false_2
      by (rewrite Ha; intros ?%list_elem_of_singleton; congruence).
    destruct (Z.leb_spec (capacity e) (attendeeCount e)) as [|Hlt]; [done|].
    unfold attendeeCount in Hlt. rewrite Ha, Hc in Hlt. simpl in Hlt. lia.
  - eauto using secondPc.
Qed.

Section LastSpot.

Variables (envA envB : Env) (reqA reqB : Request) (s : Store) (e : Event).

Hypothesis same_event : params_id reqB = params_id reqA.
Hypothesis well_formed : isValid (params_id reqA) = true.
Hypothesis exists_ : s !! params_id reqA = Some e.
Hypothesis one_spot : capacity e = 1%Z.
Hypothesis nobody_yet : attendees e = [].
Hypothesis distinct : user_id reqA ≠ user_id reqB.
Hypothesis no_faultA : fault envA = None.
Hypothesis no_faultB : fault envB = None.
Hypothesis not_pastA : (now envA ≤ date e)%Z.
Hypothesis not_pastB : (now envB ≤ date e)%Z.
Hypothesis not_creatorA : creator e ≠ user_id reqA.
Hypothesis not_creatorB : creator e ≠ user_id reqB.

Local Opaque joinStep.

Lemma lastSpot_step i pool st :
  lastSpot envA envB reqA reqB s e pool st →
  match pool !! i with
  | Some h =>
      lastSpot envA envB reqA reqB s e
        (<[i := (handlerStep isValid h st).1]> pool)
        (handlerStep isValid h st).2
  | None => True
  end.
Proof.
  intros H. destruct H as [|pcB HB|pcA HA].
  - destruct i as [|[|i]]; simpl; [| |done].
    + rewrite (last_spot_first _ _ _ e) by done. simpl.
      apply first_in. constructor.
    + rewrite (last_spot_first _ _ _ e) by (by rewrite ?same_event).
      simpl. rewrite same_event. apply second_in. constructor.
  - destruct i as [|[|i]]; simpl; [by apply first_in| |done].
    destruct (last_spot_second envB reqB
                (<[params_id reqA := setAttendees [user_id reqA] e]> s)
                (setAttendees [user_id reqA] e) (user_id reqA) pcB)
      as (pc' & -> & Hpc'); try done.
    + by rewrite same_event.
    + by rewrite same_event, lookup_insert_eq.
    + simpl. by apply first_in.
  - destruct i as [|[|i]]; simpl; [|by apply second_in|done].
    destruct (last_spot_second envA reqA
                (<[params_id reqA := setAttendees [user_id reqB] e]> s)
                (setAttendees [user_id reqB] e) (user_id reqB) pcA)
      as (pc' & -> & Hpc'); try done.
    + by rewrite lookup_insert_eq.
    + simpl. by apply second_in.
Qed.

Local Transparent joinStep.

Lemma lastSpot_run sched : ∀ pool st,
  lastSpot envA envB reqA reqB s e pool st →
  lastSpot envA envB reqA reqB s e
    (run isValid sched pool st).1 (run isValid sched pool st).2.
Proof.
  induction sched as [|i sched IH]; intros pool st H; [done|]. simpl.
  pose proof (lastSpot_step i pool st H) as Hs.
  destruct (pool !! i) as [h|]; [|by apply IH].
  destruct (handlerStep isValid h st) as [h' st']. by apply IH.
Qed.

End LastSpot.

(** C2, as the code has it.  An event has capacity one and no attendee; two
    distinct users, neither of them its creator, send a join while its date
    is not yet past; the driver raises no fault.  Then under every schedule
    of the database calls of the two handlers that gives each of them its
    two turns, one handler answers [Joined] and the other [AtCapacity] (with
    [spotsRemaining = 0]), and the attendees of the event are exactly the
    user who got [Joined]. *)
Theorem last_spot_exactly_one envA envB reqA reqB s e sched :
  params_id reqB = params_id reqA →
  isValid (params_id reqA) = true →
  s !! params_id reqA = Some e →
  capacity e = 1%Z → attendees e = [] →
  user_id reqA ≠ user_id reqB →
  fault envA = None → fault envB = None →
  (now envA ≤ date e)%Z → (now envB ≤ date e)%Z →
  creator e ≠ user_id reqA → creator e ≠ user_id reqB →
  (2 ≤ turns 0 sched)%nat → (2 ≤ turns 1 sched)%nat →
  ∀ pool s',
    run isValid sched
      [HJoin envA reqA JoinStart; HJoin envB reqB JoinStart] s = (pool, s') →
    (response <$> pool
     = [Some (Joined (setAttendees [user_id reqA] e)); Some AtCapacity]
     ∧ members s' (params_id reqA) = [user_id reqA])
    ∨ (response <$> pool
       = [Some AtCapacity; Some (Joined (setAttendees [user_id reqB] e))]
       ∧ members s' (params_id reqA) = [user_id reqB]).
Proof.
  intros Hid Hv He Hc Ha Hne HfA HfB HdA HdB HcA HcB HtA HtB pool s' Hrun.
  set (pool0 := [HJoin envA reqA JoinStart; HJoin envB reqB JoinStart]) in *.
  pose proof (lastSpot_run envA envB reqA reqB s e Hid Hv He Hc Ha Hne HfA HfB
                HdA HdB HcA HcB sched pool0 s (nobody_in _ _ _ _ _ _)) as Hinv.
  destruct (run_responds sched pool0 s 0 (HJoin envA reqA JoinStart) eq_refl HtA)
    as (hA & HhA & [rA HrA]).
  destruct (run_responds sched pool0 s 1 (HJoin envB reqB JoinStart) eq_refl HtB)
    as (hB & HhB & [rB HrB]).
  rewrite Hrun in Hinv, HhA, HhB. simpl in Hinv, HhA, HhB.
  destruct Hinv as [|pcB HB|pcA HA]; simpl in HhA, HhB; simplify_eq.
  - left. destruct HB; simpl in HrB; simplify_eq. split; [done|].
    unfold members. by rewrite lookup_insert_eq.
  - right. destruct HA; simpl in HrA; simplify_eq. split; [done|].
    unfold members. by rewrite lookup_insert_eq.
Qed.

(** ** No overbooking *)

Lemma noOverbooking_insert s id e :
  noOverbooking s → withinCapacity e → noOverbooking (<[id := e]> s).
Proof.
  intros Hs He k e' H. destruct (decide (id = k)) as [<-|Hne].
  - rewrite lookup_insert_eq in H. by injection H as <-.
  - rewrite lookup_insert_ne in H by done. eauto.
Qed.

Lemma noOverbooking_delete s id : noOverbooking s → noOverbooking (delete id s).
Proof. intros Hs k e' H. apply lookup_delete_Some in H as [_ H]. eauto. Qed.

(** The atomic update of a join keeps every event within its capacity, and
    so does the one of a leave: on whatever store they run. *)
Lemma atomicRSVP_noOverbooking s eventId userId :
  noOverbooking s → noOverbooking (atomicRSVP s eventId userId).2.
Proof.
  intros Hs. unfold atomicRSVP, findOneAndUpdate.
  destruct (s !! eventId) as [e|] eqn:He; [|done].
  destruct (rsvpCond userId e) eqn:Hc; [|done]. simpl.
  apply noOverbooking_insert; [done|].
  apply rsvpCond_spec in Hc as [Hn Hlt]. rewrite addToSet_fresh by done.
  unfold withinCapacity, attendeeCount in *. simpl.
  rewrite length_app. simpl. lia.
Qed.

Lemma atomicRemoveRSVP_noOverbooking s eventId userId :
  noOverbooking s → noOverbooking (atomicRemoveRSVP s eventId userId).2.
Proof.
  intros Hs. unfold atomicRemoveRSVP, findOneAndUpdate.
  destruct (s !! eventId) as [e|] eqn:He; [|done].
  destruct (attending userId e) eqn:Hc; [|done]. simpl.
  apply noOverbooking_insert; [done|]. apply Hs in He.
  unfold withinCapacity, attendeeCount in *. simpl.
  pose proof (pull_length userId (attendees e)). lia.
Qed.

Lemma joinStep_noOverbooking env req pc s :
  noOverbooking s → noOverbooking (joinStep isValid env req pc s).2.
Proof.
  intros Hs. destruct pc; simpl; [|done..].
  destruct (isValid (params_id req)); [|done].
  destruct (fault env); [done|]. simpl.
  pose proof (atomicRSVP_noOverbooking s (params_id req) (user_id req) Hs).
  by destruct (atomicRSVP s (params_id req) (user_id req)) as [[?|] ?].
Qed.

Lemma leaveStep_noOverbooking env req pc s :
  noOverbooking s → noOverbooking (leaveStep isValid env req pc s).2.
Proof.
  intros Hs. destruct pc; simpl; [|done..].
  destruct (isValid (params_id req)); [|done].
  destruct (fault env); [done|]. simpl.
  pose proof (atomicRemoveRSVP_noOverbooking s (params_id req) (user_id req) Hs).
  by destruct (atomicRemoveRSVP s (params_id req) (user_id req)) as [[?|] ?].
Qed.

(** Joins and leaves in flight together, their database calls in any order,
    keep every event within its capacity. *)
Lemma run_rsvp_noOverbooking sched : ∀ pool s,
  Forall (λ h, isRsvp h = true) pool →
  noOverbooking s → noOverbooking (run isValid sched pool s).2.
Proof.
  induction sched as [|i sched IH]; intros pool s Hp Hs; [done|]. simpl.
  destruct (pool !! i) as [h|] eqn:Hi; [|by apply IH].
  pose proof (proj1 (Forall_lookup _ _) Hp i h Hi) as Hh.
  destruct h as [env req pc|env req pc|req pc]; [| |done]; simpl.
  - pose proof (joinStep_noOverbooking env req pc s Hs).
    destruct (joinStep isValid env req pc s) as [pc' s'].
    apply IH; [|done]. by apply Forall_insert.
  - pose proof (leaveStep_noOverbooking env req pc s Hs).
    destruct (leaveStep isValid env req pc s) as [pc' s'].
    apply IH; [|done]. by apply Forall_insert.
Qed.

Lemma joinEvent_noOverbooking env req s :
  noOverbooking s → noOverbooking (joinEvent isValid env req s).2.
Proof.
  intros Hs. unfold joinEvent.
  pose proof (joinStep_noOverbooking env req JoinStart s Hs).
  by destruct (joinStep isValid env req JoinStart s) as [[| |r] s1].
Qed.

Lemma leaveEvent_noOverbooking env req s :
  noOverbooking s → noOverbooking (leaveEvent isValid env req s).2.
Proof.
  intros Hs. unfold leaveEvent.
  pose proof (leaveStep_noOverbooking env req LeaveStart s Hs).
  by destruct (leaveStep isValid env req LeaveStart s) as [[| |r] s1].
Qed.

(** An update that no other request gets in between of keeps every event
    within its capacity: the document it checks is the one it writes to. *)
Lemma updateEvent_noOverbooking req s :
  noOverbooking s → noOverbooking (updateEvent isValid req s).2.
Proof.
  intros Hs. unfold updateEvent, updateRead.
  destruct (eventUpdateValidation (body req)); [|done].
  destruct (isValid (params_id req)); [|done]. simpl.
  unfold findById. destruct (s !! params_id req) as [e|] eqn:He; [|done].
  case_bool_decide; [|done]. simpl. unfold buildUpdate.
  pose proof (Hs _ _ He) as Hw. unfold withinCapacity in Hw.
  destruct (Body.capacity (body req)) as [|newCapacity|raw].
  - unfold updateWrite. case_match; [done|]. rewrite He. simpl.
    by apply noOverbooking_insert.
  - destruct (Z.ltb_spec newCapacity (attendeeCount e)); [done|].
    unfold updateWrite. case_match; [done|]. rewrite He. simpl.
    by apply noOverbooking_insert.
  - unfold updateWrite. case_match; [done|]. rewrite He. simpl.
    by apply noOverbooking_insert.
Qed.

(** A creation leaves the store as it was, or adds under a fresh key a
    document without attendees that passed the validators and the hook. *)
Lemma createEvent_cases newId req s :
  (createEvent newId req s).2 = s
  ∨ ∃ e, createEvent newId req s = (Created e, <[newId := e]> s)
         ∧ attendees e = [] ∧ creator e = user_id req
         ∧ schemaValidators e = None ∧ preSave e = None ∧ s !! newId = None.
Proof.
  unfold createEvent. repeat case_match; simpl; try (by left).
  all: right; eexists; repeat split; done.
Qed.

Lemma createEvent_noOverbooking newId req s :
  noOverbooking s → noOverbooking (createEvent newId req s).2.
Proof.
  intros Hs.
  destruct (createEvent_cases newId req s)
    as [->|(e & -> & Ha & _ & _ & Hp & _)]; [done|].
  simpl. apply noOverbooking_insert; [done|].
  unfold preSave in Hp. unfold withinCapacity.
  destruct (Z.ltb_spec (capacity e) (attendeeCount e)); [done | lia].
Qed.

Lemma deleteEvent_noOverbooking req s :
  noOverbooking s → noOverbooking (deleteEvent isValid req s).2.
Proof.
  intros Hs. unfold deleteEvent. repeat (case_match; try done). simpl.
  by apply noOverbooking_delete.
Qed.

(** ** Capacities *)

Lemma capacityPositive_insert s id e :
  capacityPositive s → (1 ≤ capacity e)%Z → capacityPositive (<[id := e]> s).
Proof.
  intros Hs He k e' H. destruct (decide (id = k)) as [<-|Hne].
  - rewrite lookup_insert_eq in H. by injection H as <-.
  - rewrite lookup_insert_ne in H by done. eauto.
Qed.

Lemma findOneAndUpdate_capacityPositive cond l s id :
  capacityPositive s →
  capacityPositive
    (findOneAndUpdate cond (λ e, setAttendees (l e) e) s id).2.
Proof.
  intros Hs. unfold findOneAndUpdate.
  destruct (s !! id) as [e|] eqn:He; [|done].
  destruct (cond e); [|done]. simpl.
  apply capacityPositive_insert; [done|]. simpl. eauto.
Qed.

(** The validator [min: 1] lets no capacity below one through. *)
Lemma updateValidators_capacity u n :
  updateValidators u = None → UpdateData.capacity u = Some n → (1 ≤ n)%Z.
Proof.
  unfold updateValidators. rewrite !union_None. intros (((_ & _) & Hc) & _) Hn.
  rewrite Hn in Hc. destruct (Z.ltb_spec n 1); [done | lia].
Qed.

Lemma updateWrite_capacityPositive req u s :
  capacityPositive s → capacityPositive (updateWrite req u s).2.
Proof.
  intros Hs. unfold updateWrite.
  destruct (updateValidators u) eqn:Hu; [done|].
  destruct (s !! params_id req) as [e|] eqn:He; [|done]. simpl.
  apply capacityPositive_insert; [done|]. simpl.
  destruct (UpdateData.capacity u) as [n|] eqn:Hn; simpl.
  - by eapply updateValidators_capacity.
  - eauto.
Qed.

Lemma atomicRSVP_capacityPositive s eventId userId :
  capacityPositive s → capacityPositive (atomicRSVP s eventId userId).2.
Proof.
  unfold atomicRSVP.
  apply (findOneAndUpdate_capacityPositive _
           (λ e, addToSet userId (attendees e))).
Qed.

Lemma atomicRemoveRSVP_capacityPositive s eventId userId :
  capacityPositive s → capacityPositive (atomicRemoveRSVP s eventId userId).2.
Proof.
  unfold atomicRemoveRSVP.
  apply (findOneAndUpdate_capacityPositive _ (λ e, pull userId (attendees e))).
Qed.

Lemma handlerStep_capacityPositive h s :
  capacityPositive s → capacityPositive (handlerStep isValid h s).2.
Proof.
  intros Hs. destruct h as [env req pc|env req pc|req pc]; simpl.
  - destruct pc; simpl; [|done..].
    destruct (isValid (params_id req)); simpl; [|done].
    destruct (fault env); [done|].
    pose proof (atomicRSVP_capacityPositive s (params_id req) (user_id req) Hs).
    by destruct (atomicRSVP s (params_id req) (user_id req)) as [[?|] ?].
  - destruct pc; simpl; [|done..].
    destruct (isValid (params_id req)); simpl; [|done].
    destruct (fault env); [done|].
    pose proof (atomicRemoveRSVP_capacityPositive s (params_id req)
                  (user_id req) Hs).
    by destruct (atomicRemoveRSVP s (params_id req) (user_id req)) as [[?|] ?].
  - destruct pc as [|u|r]; simpl; [| |done].
    + by destruct (updateRead isValid req s).
    + pose proof (updateWrite_capacityPositive req u s Hs).
      by destruct (updateWrite req u s).
Qed.

Lemma run_capacityPositive sched : ∀ pool s,
  capacityPositive s → capacityPositive (run isValid sched pool s).2.
Proof.
  induction sched as [|i sched IH]; intros pool s Hs; [done|]. simpl.
  destruct (pool !! i) as [h|]; [|by apply IH].
  pose proof (handlerStep_capacityPositive h s Hs).
  destruct (handlerStep isValid h s) as [h' s']. by apply IH.
Qed.

Lemma createEvent_capacityPositive newId req s :
  capacityPositive s → capacityPositive (createEvent newId req s).2.
Proof.
  intros Hs.
  destruct (createEvent_cases newId req s)
    as [->|(e & -> & _ & _ & Hv & _ & _)]; [done|].
  simpl. apply capacityPositive_insert; [done|].
  unfold schemaValidators in Hv. rewrite !union_None in Hv.
  destruct Hv as ((_ & Hc) & _).
  destruct (Z.ltb_spec (capacity e) 1); [done | lia].
Qed.

Lemma deleteEvent_capacityPositive req s :
  capacityPositive s → capacityPositive (deleteEvent isValid req s).2.
Proof.
  intros Hs. unfold deleteEvent. repeat (case_match; try done). simpl.
  intros k e' Hk. apply lookup_delete_Some in Hk as [_ Hk]. eauto.
Qed.

Lemma reachable_capacityPositive s :
  reachable isValid s → capacityPositive s.
Proof.
  induction 1 as [|newId req s _ _ IH|req s _ IH|sched pool s _ _ IH].
  - intros id e H. by rewrite lookup_empty in H.
  - by apply createEvent_capacityPositive.
  - by apply deleteEvent_capacityPositive.
  - by apply run_capacityPositive.
Qed.

(** A body that passed the validation of the update route gives an update
    that passes the schema validators, when its category is one of the
    schema. *)
Lemma buildUpdate_validators req event u :
  eventUpdateValidation (body req) = [] →
  (∀ c, truthy (Body.category (body req)) = Some c → c ∈ categories) →
  buildUpdate req event = inr u → updateValidators u = None.
Proof.
  unfold eventUpdateValidation, buildUpdate. intros Hval Hcat Hu.
  apply app_eq_nil in Hval as [Ht Hval].
  apply app_eq_nil in Hval as [Hd Hval].
  apply app_eq_nil in Hval as [_ Hc].
  assert (Htitle : match truthy (Body.title (body req)) with
                   | Some v =>
                       if (100 <? String.length v)%nat then Some "title"
                       else None
                   | None => None
                   end = None).
  { unfold isLength in Ht. destruct (Body.title (body req)) as [[|a v]|];
      simpl in *; try done. by destruct (100 <? _)%nat. }
  assert (Hdesc : match truthy (Body.description (body req)) with
                  | Some v =>
                      if (2000 <? String.length v)%nat then Some "description"
                      else None
                  | None => None
                  end = None).
  { unfold isLength in Hd. destruct (Body.description (body req)) as [[|a v]|];
      simpl in *; try done. by destruct (2000 <? _)%nat. }
  assert (Hcateg : match truthy (Body.category (body req)) with
                   | Some c =>
                       if bool_decide (c ∈ categories) then None
                       else Some "category"
                   | None => None
                   end = None).
  { destruct (truthy (Body.category (body req))) as [c|]; [|done].
    by rewrite bool_decide_eq_true_2 by auto. }
  unfold updateValidators.
  destruct (Body.capacity (body req)) as [|n|raw] eqn:Hcap.
  - injection Hu as <-. simpl. by rewrite Htitle, Hdesc, Hcateg.
  - destruct (n <? attendeeCount event)%Z; [done|]. injection Hu as <-.
    simpl. rewrite Htitle, Hdesc, Hcateg. simpl in Hc.
    destruct (Z.leb_spec 1 n); [|done].
    by destruct (Z.ltb_spec n 1); [lia|].
  - done.
Qed.


(** ** Keys *)

Lemma findOneAndUpdate_validKeys cond upd s id :
  validKeys isValid s → validKeys isValid (findOneAndUpdate cond upd s id).2.
Proof.
  intros Hs. unfold findOneAndUpdate.
  destruct (s !! id) as [e|] eqn:He; [|done].
  destruct (cond e); [|done]. simpl. apply validKeys_insert; eauto.
Qed.

Lemma handlerStep_validKeys h s :
  validKeys isValid s → validKeys isValid (handlerStep isValid h s).2.
Proof.
  intros Hs. destruct h as [env req pc|env req pc|req pc]; simpl.
  - destruct pc; simpl; [|done..].
    destruct (isValid (params_id req)); simpl; [|done].
    destruct (fault env); [done|].
    pose proof (findOneAndUpdate_validKeys (rsvpCond (user_id req))
                  (λ e, setAttendees (addToSet (user_id req) (attendees e)) e)
                  s (params_id req) Hs) as H.
    change (validKeys isValid (atomicRSVP s (params_id req) (user_id req)).2)
      in H.
    by destruct (atomicRSVP s (params_id req) (user_id req)) as [[?|] ?].
  - destruct pc; simpl; [|done..].
    destruct (isValid (params_id req)); simpl; [|done].
    destruct (fault env); [done|].
    pose proof (findOneAndUpdate_validKeys (attending (user_id req))
                  (λ e, setAttendees (pull (user_id req) (attendees e)) e)
                  s (params_id req) Hs) as H.
    change (validKeys isValid
              (atomicRemoveRSVP s (params_id req) (user_id req)).2) in H.
    by destruct (atomicRemoveRSVP s (params_id req) (user_id req)) as [[?|] ?].
  - destruct pc as [|u|r]; simpl; [| |done].
    + by destruct (updateRead isValid req s).
    + unfold updateWrite. destruct (updateValidators u); [done|].
      destruct (s !! params_id req) as [e|] eqn:He; [|done]. simpl.
      apply validKeys_insert; eauto.
Qed.

(** The stores the server can reach hold their events under ObjectIds. *)
Lemma reachable_validKeys s : reachable isValid s → validKeys isValid s.
Proof.
  induction 1 as [|newId req s Hid _ IH|req s _ IH|sched pool s _ _ IH].
  - intros id e H. by rewrite lookup_empty in H.
  - destruct (createEvent_cases newId req s) as [->|(e & -> & _)]; [done|].
    simpl. by apply validKeys_insert.
  - unfold deleteEvent. repeat (case_match; try done). simpl.
    intros k e' Hk. apply lookup_delete_Some in Hk as [_ Hk]. eauto.
  - clear -IH. revert pool s IH.
    induction sched as [|i sched IHs]; intros pool s Hs; [done|]. simpl.
    destruct (pool !! i) as [h|]; [|by apply IHs].
    pose proof (handlerStep_validKeys h s Hs).
    destruct (handlerStep isValid h s) as [h' s']. by apply IHs.
Qed.

(** ** As many members as there are spots *)

(** Join requests of distinct users, none of them an attendee yet, served
    one after the other without a fault of the driver: the first ones get
    the free spots, in the order of their requests. *)
Lemma joinAll_distinct reqs : ∀ s e eventId,
  s !! eventId = Some e → isValid eventId = true →
  Forall (λ er : Env * Request,
            params_id er.2 = eventId ∧ fault er.1 = None) reqs →
  NoDup ((λ er : Env * Request, user_id er.2) <$> reqs) →
  Forall (λ er : Env * Request, user_id er.2 ∉ attendees e) reqs →
  members (joinAll isValid reqs s).2 eventId
  = attendees e
    ++ take (Z.to_nat (capacity e - attendeeCount e))
         ((λ er : Env * Request, user_id er.2) <$> reqs).
Proof.
  induction reqs as [|[env req] reqs IH]; intros s e eventId He Hv Hall Hnd Hnew.
  { simpl. unfold members. rewrite He, take_nil. by rewrite app_nil_r. }
  apply Forall_cons in Hall as [[Hid Hf] Hall]. simpl in Hid, Hf. subst eventId.
  apply Forall_cons in Hnew as [Hu Hnew]. simpl in Hu.
  rewrite fmap_cons in Hnd. apply NoDup_cons in Hnd as [Hfresh Hnd].
  simpl.
  destruct (Z.ltb_spec (attendeeCount e) (capacity e)) as [Hlt|Hge].
  - rewrite (joinEvent_applied _ _ _ e); try done;
      [|apply rsvpCond_spec; by split].
    specialize (IH (<[params_id req :=
                        setAttendees (attendees e ++ [user_id req]) e]> s)
                  (setAttendees (attendees e ++ [user_id req]) e)
                  (params_id req)).
    destruct (joinAll isValid reqs _) as [rs s2]. simpl in *.
    rewrite IH; try done.
    + unfold attendeeCount. simpl. rewrite length_app. simpl.
      unfold attendeeCount in Hlt.
      replace (Z.to_nat (capacity e - Z.of_nat (length (attendees e))))
        with (S (Z.to_nat (capacity e
                           - Z.of_nat (length (attendees e) + 1)))) by lia.
      simpl. by rewrite <- app_assoc.
    + by rewrite lookup_insert_eq.
    + apply Forall_forall. intros er Her. simpl.
      rewrite not_elem_of_app, list_elem_of_singleton. split.
      * by apply (proj1 (Forall_forall _ _) Hnew).
      * intros Heq. apply Hfresh. rewrite <- Heq.
        by apply (list_elem_of_fmap_2 (λ er : Env * Request, user_id er.2)).
  - rewrite joinEvent_not_applied; try done.
    + specialize (IH s e (params_id req) He Hv Hall Hnd Hnew).
      destruct (joinAll isValid reqs s) as [rs s2]. simpl in *. rewrite IH.
      by replace (Z.to_nat (capacity e - attendeeCount e)) with 0%nat by lia.
    + intros (e' & He' & _ & Hlt). rewrite He in He'. injection He' as <-. lia.
Qed.

(** On an event without attendees and with capacity [C], [N] such requests
    leave [min N C] attendees, all distinct. *)
Lemma joinAll_min reqs s e eventId :
  s !! eventId = Some e → isValid eventId = true →
  attendees e = [] →
  Forall (λ er : Env * Request,
            params_id er.2 = eventId ∧ fault er.1 = None) reqs →
  NoDup ((λ er : Env * Request, user_id er.2) <$> reqs) →
  length (members (joinAll isValid reqs s).2 eventId)
  = (length reqs `min` Z.to_nat (capacity e))%nat
  ∧ NoDup (members (joinAll isValid reqs s).2 eventId).
Proof.
  intros He Hv Ha Hall Hnd.
  rewrite (joinAll_distinct reqs s e eventId He Hv Hall Hnd).
  - unfold attendeeCount. rewrite Ha. simpl. rewrite Z.sub_0_r. split.
    + rewrite length_take, length_fmap. lia.
    + eapply sublist_NoDup; [done | apply sublist_take].
  - apply Forall_forall. intros er _. rewrite Ha. apply not_elem_of_nil.
Qed.

End Controller.

(** * The properties on worked data *)

Lemma storeWith_party cap att : storeWith cap att !! party = Some (eventWith cap att).
Proof. apply lookup_singleton_eq. Qed.


(** C2 as stated fails on a past event and for the creator.  Two users join
    an event of capacity one without attendees after its date: the first is
    answered [Joined], the second [EventEnded].  A user and the creator join
    it before its date: the user is answered [Joined], the creator
    [CreatorImplicitlyAttending].  Neither second answer is [AtCapacity]. *)
Lemma last_spot_past_event_counterexample :
  capacity (eventWith 1 []) = 1%Z ∧ attendees (eventWith 1 []) = []
  ∧ alice ≠ bob ∧ alice ≠ owner
  ∧ run isHex24 [0; 1; 1]
      [HJoin after (rsvp alice) JoinStart; HJoin after (rsvp bob) JoinStart]
      (storeWith 1 [])
    = ([HJoin after (rsvp alice) (JoinDone (Joined (eventWith 1 [alice])));
        HJoin after (rsvp bob) (JoinDone EventEnded)],
       storeWith 1 [alice])
  ∧ EventEnded ≠ AtCapacity
  ∧ run isHex24 [0; 1; 1]
      [HJoin before (rsvp alice) JoinStart; HJoin before (rsvp owner) JoinStart]
      (storeWith 1 [])
    = ([HJoin before (rsvp alice) (JoinDone (Joined (eventWith 1 [alice])));
        HJoin before (rsvp owner) (JoinDone CreatorImplicitlyAttending)],
       storeWith 1 [alice])
  ∧ CreatorImplicitlyAttending ≠ AtCapacity.
Proof. repeat split; try done; vm_compute; reflexivity. Qed.

Lemma last_spot_exactly_one_witness :
  let final :=
    run isHex24 [1; 0; 0; 1]
      [HJoin before (rsvp alice) JoinStart; HJoin before (rsvp bob) JoinStart]
      (storeWith 1 []) in
  (response <$> final.1
   = [Some (Joined (setAttendees [alice] (eventWith 1 []))); Some AtCapacity]
   ∧ members final.2 party = [alice])
  ∨ (response <$> final.1
     = [Some AtCapacity; Some (Joined (setAttendees [bob] (eventWith 1 [])))]
     ∧ members final.2 party = [bob]).
Proof.
  apply (last_spot_exactly_one isHex24 before before (rsvp alice) (rsvp bob)
           (storeWith 1 []) (eventWith 1 []) [1; 0; 0; 1]);
    try reflexivity; try (simpl; lia); discriminate.
Defined.

Lemma full_not_applies : ¬ joinApplies (storeWith 1 [bob]) party alice.
Proof.
  intros (e & He & _ & Hlt). rewrite storeWith_party in He.
  injection He as <-. vm_compute in Hlt. discriminate.
Qed.

Lemma absent_not_leaving : ¬ leaveApplies (storeWith 1 [bob]) party alice.
Proof.
  intros (e & He & Hin). rewrite storeWith_party in He. injection He as <-.
  simpl in Hin. apply list_elem_of_singleton in Hin. discriminate.
Qed.

(** C3 on the code.  The owner's update of the capacity reads the event,
    compares the new capacity with the attendees it has read, and writes the
    capacity with a second call.  With two spots and one attendee, the
    owner's request for capacity one passes the check; a join that is served
    between the two calls takes the second spot; the write then sets the
    capacity to one.  Each request is answered with a success, and the store
    that results, one the server can reach, has two attendees on one spot.
    Served one after the other, in either order, the same two requests keep
    the event within its capacity. *)
Theorem update_race_overbooks :
  reachable isHex24 (storeWith 2 [alice])
  ∧ noOverbooking (storeWith 2 [alice])
  ∧ run isHex24 [0; 1; 0]
      [HUpdate (setCapacity 1) UpdateStart; HJoin before (rsvp bob) JoinStart]
      (storeWith 2 [alice])
    = ([HUpdate (setCapacity 1)
          (UpdateDone (Updated (Some (eventWith 1 [alice; bob]))));
        HJoin before (rsvp bob) (JoinDone (Joined (eventWith 2 [alice; bob])))],
       storeWith 1 [alice; bob])
  ∧ reachable isHex24 (storeWith 1 [alice; bob])
  ∧ ¬ noOverbooking (storeWith 1 [alice; bob])
  ∧ run isHex24 [0; 0; 1; 1]
      [HUpdate (setCapacity 1) UpdateStart; HJoin before (rsvp bob) JoinStart]
      (storeWith 2 [alice])
    = ([HUpdate (setCapacity 1)
          (UpdateDone (Updated (Some (eventWith 1 [alice]))));
        HJoin before (rsvp bob) (JoinDone AtCapacity)],
       storeWith 1 [alice])
  ∧ run isHex24 [1; 0; 0]
      [HUpdate (setCapacity 1) UpdateStart; HJoin before (rsvp bob) JoinStart]
      (storeWith 2 [alice])
    = ([HUpdate (setCapacity 1) (UpdateDone (CapacityBelowAttendees 2));
        HJoin before (rsvp bob) (JoinDone (Joined (eventWith 2 [alice; bob])))],
       storeWith 2 [alice; bob]).
Proof.
  assert (Hreach : reachable isHex24 (storeWith 2 [alice])).
  { replace (storeWith 2 [alice])
      with (run isHex24 [0] [HJoin before (rsvp alice) JoinStart]
              (createEvent party (creation 2) ∅).2).2
      by (vm_compute; reflexivity).
    apply reach_run; [by repeat constructor|].
    apply reach_create; [reflexivity | apply reach_empty]. }
  split; [done|]. split.
  { intros id e H. unfold storeWith in H.
    apply lookup_singleton_Some in H as [_ <-].
    unfold withinCapacity. vm_compute. discriminate. }
  split; [vm_compute; reflexivity|]. split.
  { replace (storeWith 1 [alice; bob])
      with (run isHex24 [0; 1; 0]
              [HUpdate (setCapacity 1) UpdateStart;
               HJoin before (rsvp bob) JoinStart] (storeWith 2 [alice])).2
      by (vm_compute; reflexivity).
    apply reach_run; [by repeat constructor | done]. }
  split.
  { intros H. specialize (H party _ (storeWith_party _ _)).
    unfold withinCapacity in H. vm_compute in H. by apply H. }
  split; vm_compute; reflexivity.
Qed.

Lemma no_duplicate_membership_witness :
  occurrences alice
    (members (joinEvent isHex24 before (rsvp alice) (storeWith 2 [])).2 party)
  = 1%nat.
Proof.
  exact (proj1 (proj2 (proj2 (no_duplicate_membership isHex24 alice party))
                  before after (rsvp alice) (storeWith 2 []) _ _
                  eq_refl eq_refl (surjective_pairing _) eq_refl eq_refl)).
Defined.

Lemma not_applied_no_mutation_witness :
  (joinEvent isHex24 before (rsvp alice) (storeWith 1 [bob])).2
  = storeWith 1 [bob]
  ∧ (leaveEvent isHex24 before (rsvp alice) (storeWith 1 [bob])).2
    = storeWith 1 [bob].
Proof.
  pose proof (not_applied_no_mutation isHex24 before (rsvp alice)
                (storeWith 1 [bob])) as (Hj & Hl & _).
  split.
  - exact (proj1 (proj2 (Hj full_not_applies))).
  - exact (proj1 (proj2 (Hl absent_not_leaving))).
Defined.



Lemma noOverbooking_storeWith cap att :
  (Z.of_nat (length att) ≤ cap)%Z → noOverbooking (storeWith cap att).
Proof.
  intros H id e He. unfold storeWith in He.
  by apply lookup_singleton_Some in He as [_ <-].
Qed.





(** * Further properties of the controllers *)

(** ** The list routes *)

#[local] Instance byDate_total : Total byDate.
Proof. intros d1 d2. unfold byDate. lia. Qed.

#[local] Instance byDate_trans : Transitive byDate.
Proof. intros d1 d2 d3. unfold byDate. lia. Qed.

Lemma elem_of_find cond s id e :
  (id, e) ∈ find cond s ↔ s !! id = Some e ∧ cond e = true.
Proof.
  unfold find. rewrite list_elem_of_filter, elem_of_map_to_list. simpl.
  split; intros [? ?]; done.
Qed.

Lemma NoDup_find cond s : NoDup (find cond s).*1.
Proof.
  unfold find. eapply sublist_NoDup; [apply (NoDup_fst_map_to_list s)|].
  apply fmap_sublist, sublist_filter.
Qed.

Lemma elem_of_sortByDate d l : d ∈ sortByDate l ↔ d ∈ l.
Proof. unfold sortByDate. by rewrite merge_sort_Permutation. Qed.

Lemma length_sortByDate l : length (sortByDate l) = length l.
Proof. unfold sortByDate. by rewrite merge_sort_Permutation. Qed.

Lemma sortByDate_sorted l : StronglySorted byDate (sortByDate l).
Proof. apply StronglySorted_merge_sort; apply _. Qed.

Lemma NoDup_sortByDate l : NoDup l.*1 → NoDup (sortByDate l).*1.
Proof. unfold sortByDate. by rewrite merge_sort_Permutation. Qed.

(** X7.  [getMyRsvps], without a fault of the driver, lists exactly the
    events that are active and have the user among their attendees, each
    once, in ascending order of their dates, and [count] is their number. *)
Theorem my_rsvps_listing env req s :
  fault env = None →
  ∃ events,
    getMyRsvps env req s = Listed (Z.of_nat (length events)) events
    ∧ (∀ id e, (id, e) ∈ events
               ↔ s !! id = Some e ∧ user_id req ∈ attendees e
                 ∧ isActive e = true)
    ∧ StronglySorted byDate events
    ∧ NoDup events.*1.
Proof.
  intros Hf. unfold getMyRsvps. rewrite Hf. eexists. split; [done|].
  split; [|split].
  - intros id e. rewrite elem_of_sortByDate, elem_of_find.
    unfold attending. rewrite andb_true_iff, !bool_decide_eq_true. tauto.
  - apply sortByDate_sorted.
  - apply NoDup_sortByDate, NoDup_find.
Qed.

(** ** Counts *)

Lemma find_length_fresh cond s id e :
  s !! id = None →
  length (find cond (<[id := e]> s))
  = ((if cond e then 1 else 0) + length (find cond s))%nat.
Proof.
  intros Hid. unfold find. rewrite (map_to_list_insert s id e Hid).
  rewrite filter_cons. simpl. destruct (cond e); by case_decide.
Qed.

(** Writing a document anew changes a count by what the old and the new
    document contribute. *)
Lemma find_length_insert cond s id e e' :
  s !! id = Some e →
  (length (find cond (<[id := e']> s)) + (if cond e then 1 else 0)
   = length (find cond s) + (if cond e' then 1 else 0))%nat.
Proof.
  intros He.
  rewrite <- (insert_delete_eq s id e').
  rewrite <- (insert_delete_id s id e He) at 2.
  rewrite !find_length_fresh by apply lookup_delete_eq. lia.
Qed.

Lemma find_length_delete cond s id e :
  s !! id = Some e →
  (length (find cond (delete id s)) + (if cond e then 1 else 0)
   = length (find cond s))%nat.
Proof.
  intros He. rewrite <- (insert_delete_id s id e He) at 2.
  rewrite find_length_fresh by apply lookup_delete_eq. lia.
Qed.

Lemma find_length_mono (c1 c2 : Event → bool) s :
  (∀ e, c1 e = true → c2 e = true) →
  (length (find c1 s) ≤ length (find c2 s))%nat.
Proof.
  intros Himp. unfold find. induction (map_to_list s) as [|d l IH]; [done|].
  rewrite !filter_cons. repeat case_decide; simpl; try lia.
  exfalso. auto.
Qed.

(** X9.  The dashboard counts everything the user created and every event
    the user attends, active or not; the upcoming counts are parts of them.
    The number of created events is the [count] of [getMyEvents], and the
    [count] of [getMyRsvps], which lists active events only, is at most the
    number of RSVPs. *)
Theorem dashboard_counts env req s :
  fault env = None →
  ∃ totalCreated totalRsvps upcomingCreated upcomingRsvps,
    dashboardStats env req s
    = Stats totalCreated totalRsvps upcomingCreated upcomingRsvps
    ∧ (0 ≤ upcomingCreated ≤ totalCreated)%Z
    ∧ (0 ≤ upcomingRsvps ≤ totalRsvps)%Z
    ∧ getMyEvents env req s
      = Listed totalCreated (eventsOf (getMyEvents env req s))
    ∧ ∃ count, getMyRsvps env req s
               = Listed count (eventsOf (getMyRsvps env req s))
               ∧ (count ≤ totalRsvps)%Z.
Proof.
  intros Hf. unfold dashboardStats, getMyEvents, getMyRsvps. rewrite Hf.
  do 4 eexists. split; [done|]. unfold countDocuments, listed. simpl.
  rewrite !length_sortByDate. repeat split; try lia.
  - apply inj_le, find_length_mono. by intros e [? _]%andb_true_iff.
  - apply inj_le, find_length_mono. by intros e [? _]%andb_true_iff.
  - eexists. split; [done|].
    apply inj_le, find_length_mono. by intros e [? _]%andb_true_iff.
Qed.

(** ** Validation and creation *)

Lemma notEmpty_nil msg o :
  notEmpty msg o = [] ↔ ∃ v, o = Some v ∧ v ≠ "".
Proof.
  unfold notEmpty, truthy. destruct o as [[|a v]|]; simpl; split;
    try done; try (intros (v' & ? & ?); by simplify_eq); eauto.
Qed.

Lemma isLength_nil max msg v :
  isLength max msg (Some v) = [] ↔ (String.length v ≤ max)%nat.
Proof.
  unfold isLength. destruct (Nat.ltb_spec max (String.length v)); split;
    try done; lia.
Qed.

(** The fields of a body that passed [eventValidation]. *)
Lemma eventValidation_nil b :
  eventValidation b = [] →
  ∃ title description date time location capacity,
    Body.title b = Some title ∧ title ≠ ""
    ∧ (String.length title ≤ 100)%nat
    ∧ Body.description b = Some description ∧ description ≠ ""
    ∧ (String.length description ≤ 2000)%nat
    ∧ Body.date b = Value date
    ∧ Body.time b = Some time ∧ time ≠ ""
    ∧ Body.location b = Some location ∧ location ≠ ""
    ∧ Body.capacity b = Value capacity ∧ (1 ≤ capacity)%Z.
Proof.
  unfold eventValidation. rewrite !app_nil, !notEmpty_nil.
  intros ((t & Ht & Ht') & Hlt & (d & Hd & Hd') & Hld & Hdate1 & Hdate2
          & (tm & Htm & Htm') & (l & Hl & Hl') & Hcap1 & Hcap2).
  rewrite Ht in Hlt. rewrite Hd in Hld.
  apply isLength_nil in Hlt. apply isLength_nil in Hld.
  destruct (Body.date b) as [|date|raw]; try done.
  destruct (Body.capacity b) as [|capacity|raw]; try done.
  simpl in Hcap2. destruct (Z.leb_spec 1 capacity); [|done].
  exists t, d, date, tm, l, capacity. repeat split; done.
Qed.


(** The schema validators accept what the route validation accepted, up to
    the category, and the [pre('save')] hook lets an event without attendees
    through. *)
Lemma schemaValidators_validated t d date tm l capacity cat img owner :
  t ≠ "" → (String.length t ≤ 100)%nat →
  d ≠ "" → (String.length d ≤ 2000)%nat →
  tm ≠ "" → l ≠ "" → (1 ≤ capacity)%Z →
  let e := {| title := t; description := d; date := date; time := tm;
              location := l; capacity := capacity; category := cat;
              image := img; creator := owner; attendees := [];
              isActive := true |} in
  schemaValidators e
  = (if bool_decide (cat ∈ categories) then None else Some "category")
  ∧ preSave e = None.
Proof.
  intros Ht Hlt Hd Hld Htm Hl Hc e. unfold schemaValidators, preSave. simpl.
  rewrite !bool_decide_eq_false_2 by done. simpl.
  destruct (Nat.ltb_spec 100 (String.length t)); [lia|].
  destruct (Nat.ltb_spec 2000 (String.length d)); [lia|].
  destruct (Z.ltb_spec capacity 1); [lia|].
  destruct (Z.ltb_spec capacity (attendeeCount e)) as [Hlt'|];
    [unfold attendeeCount in Hlt'; simpl in Hlt'; lia|].
  split; [|done]. by destruct (bool_decide (cat ∈ categories)).
Qed.


Lemma createEvent_success newId req s r s' :
  createEvent newId req s = (r, s') → success r = true →
  ∃ e, r = Created e ∧ s' = <[newId := e]> s
       ∧ attendees e = [] ∧ creator e = user_id req
       ∧ schemaValidators e = None ∧ s !! newId = None.
Proof.
  unfold createEvent. intros H Hs.
  repeat case_match; simplify_eq; try discriminate;
    eexists; repeat split; done.
Qed.

(** X18.  [getMyEvents], without a fault of the driver, lists exactly the
    events whose creator is the user, past and inactive ones too, each once
    and in ascending order of their dates; an event that the user has just
    created is in the list. *)
Theorem my_events_listing env req s :
  fault env = None →
  (∀ id e, (id, e) ∈ eventsOf (getMyEvents env req s)
           ↔ s !! id = Some e ∧ creator e = user_id req)
  ∧ StronglySorted byDate (eventsOf (getMyEvents env req s))
  ∧ NoDup (eventsOf (getMyEvents env req s)).*1
  ∧ (∀ newId reqC r s' e, createEvent newId reqC s = (r, s') →
       event r = Some e → user_id reqC = user_id req →
       (newId, e) ∈ eventsOf (getMyEvents env req s')).
Proof.
  intros Hf. unfold getMyEvents. rewrite Hf. simpl. split; [|split; [|split]].
  - intros id e. rewrite elem_of_sortByDate, elem_of_find.
    by rewrite bool_decide_eq_true.
  - apply sortByDate_sorted.
  - apply NoDup_sortByDate, NoDup_find.
  - intros newId reqC r s' e Hc He Hu.
    assert (Hs : success r = true).
    { unfold createEvent in Hc. repeat case_match; by simplify_eq. }
    destruct (createEvent_success newId reqC s r s' Hc Hs)
      as (e0 & -> & -> & _ & Hcr & _). simpl in He. injection He as <-.
    rewrite elem_of_sortByDate, elem_of_find, lookup_insert_eq.
    split; [done|]. apply bool_decide_eq_true. congruence.
Qed.


Section Further.

Variable isValid : string → bool.

#[local] Set Warnings "-clear-no-such-hyp".

(** ** Joining and leaving *)

Lemma pull_app_fresh userId l : userId ∉ l → pull userId (l ++ [userId]) = l.
Proof.
  intros Hn. unfold pull. rewrite filter_app, filter_cons, decide_False by auto.
  rewrite filter_nil, app_nil_r.
  induction l as [|a l IH]; [done|].
  apply not_elem_of_cons in Hn as [Hne Hn].
  rewrite filter_cons, decide_True by auto. by rewrite IH.
Qed.

Lemma pull_length_elem userId l :
  userId ∈ l → (length (pull userId l) < length l)%nat.
Proof.
  unfold pull. induction l as [|a l IH]; intros Hin.
  - by apply elem_of_nil in Hin.
  - rewrite filter_cons. case_decide as Ha; simpl.
    + apply elem_of_cons in Hin as [->|Hin]; [done|].
      specialize (IH Hin). lia.
    + pose proof (length_filter (λ a, a ≠ userId) l). lia.
Qed.

Lemma setAttendees_setAttendees l1 l2 e :
  setAttendees l2 (setAttendees l1 e) = setAttendees l2 e.
Proof. reflexivity. Qed.

Lemma setAttendees_id e : setAttendees (attendees e) e = e.
Proof. by destruct e. Qed.


(** X2.  A leave frees a spot.  After a leave that succeeded on a store
    whose events are within their capacity, a join to the same event by any
    user who is then no attendee (the one who left, too) succeeds, when the
    driver raises no fault. *)
Theorem leave_frees_spot envL reqL envJ reqJ s r s' :
  noOverbooking s →
  leaveEvent isValid envL reqL s = (r, s') → success r = true →
  params_id reqJ = params_id reqL → fault envJ = None →
  user_id reqJ ∉ members s' (params_id reqL) →
  success (joinEvent isValid envJ reqJ s').1 = true
  ∧ members (joinEvent isValid envJ reqJ s').2 (params_id reqL)
    = members s' (params_id reqL) ++ [user_id reqJ].
Proof.
  intros Hok Hl Hs Hid Hf Hn.
  destruct (leaveEvent_cases isValid envL reqL s)
    as [[_ Hno]|(e & He & Hin & Hv & _ & Hl')].
  { rewrite Hl in Hno. simpl in Hno. congruence. }
  rewrite Hl' in Hl. injection Hl as <- <-.
  rewrite members_insert, decide_True in Hn by done. simpl in Hn.
  rewrite (joinEvent_applied _ _ _ _
             (setAttendees (pull (user_id reqL) (attendees e)) e)).
  - simpl. split; [done|]. rewrite Hid, !members_insert, !decide_True by done.
    done.
  - by rewrite Hid.
  - done.
  - by rewrite Hid, lookup_insert_eq.
  - apply rsvpCond_spec. split; [done|]. unfold attendeeCount. simpl.
    apply Hok in He. unfold withinCapacity, attendeeCount in He.
    pose proof (pull_length_elem (user_id reqL) (attendees e) Hin). lia.
Qed.

(** [joinEvent] reads and writes the one document it addresses. *)
Lemma joinEvent_joinOn env req s :
  joinEvent isValid env req s
  = ((joinOn (isValid (params_id req)) env req (s !! params_id req)).1,
     match (joinOn (isValid (params_id req)) env req (s !! params_id req)).2
     with
     | Some e' => <[params_id req := e']> s
     | None => s
     end).
Proof.
  unfold joinOn. destruct (isValid (params_id req)) eqn:Hv; simpl;
    [|by apply joinEvent_invalid].
  destruct (fault env) as [err|] eqn:Hf; [by apply joinEvent_fault|].
  destruct (s !! params_id req) as [e|] eqn:He.
  - destruct (rsvpCond (user_id req) e) eqn:Hc; simpl.
    + by apply joinEvent_applied.
    + rewrite joinEvent_not_applied; try done.
      * unfold joinDiagnose, findById. by rewrite He, lookup_singleton_eq.
      * intros (e' & He' & H)%joinApplies_cond. congruence.
  - simpl. rewrite joinEvent_not_applied; try done.
    + unfold joinDiagnose, findById. by rewrite He.
    + intros (e' & He' & _). congruence.
Qed.

(** X3.  A join touches no event but the one it addresses, and joins to two
    different events do not depend on their order: served either way round
    they get the same two answers and leave the same store. *)
Theorem joins_to_different_events_commute env1 env2 req1 req2 s :
  params_id req1 ≠ params_id req2 →
  (∀ id, id ≠ params_id req1 →
         (joinEvent isValid env1 req1 s).2 !! id = s !! id)
  ∧ (joinEvent isValid env2 req2 (joinEvent isValid env1 req1 s).2).1
    = (joinEvent isValid env2 req2 s).1
  ∧ (joinEvent isValid env1 req1 (joinEvent isValid env2 req2 s).2).1
    = (joinEvent isValid env1 req1 s).1
  ∧ (joinEvent isValid env2 req2 (joinEvent isValid env1 req1 s).2).2
    = (joinEvent isValid env1 req1 (joinEvent isValid env2 req2 s).2).2.
Proof.
  intros Hne.
  assert (Hframe : ∀ env req t id, id ≠ params_id req →
            (joinEvent isValid env req t).2 !! id = t !! id).
  { intros env req t id Hid. rewrite joinEvent_joinOn. simpl.
    destruct (joinOn _ env req (t !! params_id req)).2; [|done].
    by rewrite lookup_insert_ne. }
  split; [apply Hframe|].
  rewrite (joinEvent_joinOn env2 req2 (joinEvent isValid env1 req1 s).2).
  rewrite (joinEvent_joinOn env1 req1 (joinEvent isValid env2 req2 s).2).
  rewrite !Hframe by done.
  rewrite (joinEvent_joinOn env2 req2 s), (joinEvent_joinOn env1 req1 s).
  simpl. repeat split.
  destruct (joinOn _ env1 req1 (s !! params_id req1)).2 as [e1|];
    destruct (joinOn _ env2 req2 (s !! params_id req2)).2 as [e2|]; try done.
  by apply insert_insert_ne.
Qed.

(** The status of the answer of [joinEvent], by the way through it. *)
Lemma joinEvent_status env req s :
  status (joinEvent isValid env req s).1
  = if negb (isValid (params_id req)) then 400%Z
    else match fault env with
         | Some err =>
             if bool_decide (MongoError.name err = "MongoError")
                && bool_decide (MongoError.code err = 112%Z)
             then 409%Z else 500%Z
         | None =>
             match s !! params_id req with
             | Some e => if rsvpCond (user_id req) e then 200%Z else 400%Z
             | None => 404%Z
             end
         end.
Proof.
  rewrite joinEvent_joinOn. simpl. unfold joinOn.
  destruct (isValid (params_id req)); simpl; [|done].
  destruct (fault env) as [err|]; simpl.
  { unfold joinCatch. by case_match. }
  destruct (s !! params_id req) as [e|]; simpl; [|done].
  destruct (rsvpCond (user_id req) e); simpl; [done|].
  unfold joinDiagnose, findById. rewrite lookup_singleton_eq.
  by repeat case_match.
Qed.


(** ** The RSVP status *)


(** X6.  The status after an RSVP.  After a join that succeeded, the status
    of the same user for the same event says [isAttending], with the
    [spotsRemaining] that the join reported; after a leave that succeeded it
    says not [isAttending], with the [spotsRemaining] that the leave
    reported. *)
Theorem rsvp_status_after env1 env2 req s :
  fault env2 = None →
  (∀ r s1, joinEvent isValid env1 req s = (r, s1) → success r = true →
     ∃ isCreator spots full,
       checkRsvpStatus isValid env2 req s1 = Status true isCreator spots full
       ∧ spotsRemaining r = Some spots)
  ∧ (∀ r s1, leaveEvent isValid env1 req s = (r, s1) → success r = true →
       ∃ isCreator spots full,
         checkRsvpStatus isValid env2 req s1
         = Status false isCreator spots full
         ∧ spotsRemaining r = Some spots).
Proof.
  intros Hf2. split; intros r s1 H Hs.
  - destruct (joinEvent_cases isValid env1 req s)
      as [[_ Hn]|(e & He & Hc & Hv & _ & Hj)].
    { rewrite H in Hn. simpl in Hn. congruence. }
    rewrite Hj in H. injection H as <- <-.
    unfold checkRsvpStatus, findById. rewrite Hv, Hf2, lookup_insert_eq.
    simpl. rewrite (bool_decide_eq_true_2 (user_id req ∈ _)) by set_solver.
    eauto.
  - destruct (leaveEvent_cases isValid env1 req s)
      as [[_ Hn]|(e & He & Hin & Hv & _ & Hl)].
    { rewrite H in Hn. simpl in Hn. congruence. }
    rewrite Hl in H. injection H as <- <-.
    unfold checkRsvpStatus, findById. rewrite Hv, Hf2, lookup_insert_eq.
    simpl. rewrite (bool_decide_eq_false_2 (user_id req ∈ _))
      by apply pull_not_elem.
    eauto.
Qed.

(** ** The list routes and the RSVPs *)

(** X8.  The list of a user's RSVPs follows the RSVPs.  After a join that
    succeeded on an active event the event is in the user's list; after a
    leave that succeeded it is not; and an event that its creator has
    deleted is in no user's list. *)
Theorem my_rsvps_follow_rsvps env1 env2 req s :
  (∀ r s1 e', joinEvent isValid env1 req s = (r, s1) → success r = true →
     event r = Some e' → isActive e' = true → fault env2 = None →
     (params_id req, e') ∈ eventsOf (getMyRsvps env2 req s1))
  ∧ (∀ r s1 e, leaveEvent isValid env1 req s = (r, s1) → success r = true →
       (params_id req, e) ∉ eventsOf (getMyRsvps env2 req s1))
  ∧ (∀ r s1 e reader, deleteEvent isValid req s = (r, s1) →
       success r = true →
       (params_id req, e) ∉ eventsOf (getMyRsvps env2 reader s1)).
Proof.
  split; [|split].
  - intros r s1 e' Hj Hs He' Hact Hf2.
    destruct (joinEvent_cases isValid env1 req s)
      as [[_ Hn]|(e & He & Hc & Hv & _ & Hj')].
    { rewrite Hj in Hn. simpl in Hn. congruence. }
    rewrite Hj' in Hj. injection Hj as <- <-. simpl in He'.
    injection He' as <-.
    unfold getMyRsvps. rewrite Hf2. simpl.
    rewrite elem_of_sortByDate, elem_of_find, lookup_insert_eq.
    split; [done|]. unfold attending. simpl.
    rewrite andb_true_iff, !bool_decide_eq_true. split; [set_solver | done].
  - intros r s1 e Hl Hs.
    destruct (leaveEvent_cases isValid env1 req s)
      as [[_ Hn]|(e0 & He & Hin & Hv & _ & Hl')].
    { rewrite Hl in Hn. simpl in Hn. congruence. }
    rewrite Hl' in Hl. injection Hl as <- <-.
    unfold getMyRsvps. destruct (fault env2); simpl; [apply not_elem_of_nil|].
    rewrite elem_of_sortByDate, elem_of_find, lookup_insert_eq.
    intros [Heq Hc]. injection Heq as <-. unfold attending in Hc. simpl in Hc.
    apply andb_true_iff in Hc as [Hc _]. apply bool_decide_eq_true in Hc.
    by apply pull_not_elem in Hc.
  - intros r s1 e reader Hd Hs. unfold deleteEvent in Hd.
    destruct (isValid (params_id req)); simpl in Hd;
      [|injection Hd as <- <-; discriminate].
    destruct (findById s (params_id req)) as [e0|];
      [|injection Hd as <- <-; discriminate].
    case_bool_decide; simpl in Hd; [|injection Hd as <- <-; discriminate].
    injection Hd as <- <-.
    unfold getMyRsvps. destruct (fault env2); simpl; [apply not_elem_of_nil|].
    rewrite elem_of_sortByDate, elem_of_find, lookup_delete_eq.
    by intros [? _].
Qed.

(** X10.  A join that succeeded adds one to the joining user's number of
    RSVPs on the dashboard, and one to the upcoming RSVPs exactly when the
    date of the event is not past; the numbers of created events stay. *)
Theorem dashboard_after_join env1 env2 req s r s1 :
  joinEvent isValid env1 req s = (r, s1) → success r = true →
  fault env2 = None →
  ∃ e totalCreated totalRsvps upcomingCreated upcomingRsvps,
    s !! params_id req = Some e
    ∧ dashboardStats env2 req s
      = Stats totalCreated totalRsvps upcomingCreated upcomingRsvps
    ∧ dashboardStats env2 req s1
      = Stats totalCreated (totalRsvps + 1) upcomingCreated
          (upcomingRsvps + (if (now env2 <=? date e)%Z then 1 else 0)).
Proof.
  intros Hj Hs Hf2.
  destruct (joinEvent_cases isValid env1 req s)
    as [[_ Hn]|(e & He & Hc & Hv & _ & Hj')].
  { rewrite Hj in Hn. simpl in Hn. congruence. }
  rewrite Hj' in Hj. injection Hj as <- <-.
  apply rsvpCond_spec in Hc as [Hfresh _].
  exists e. unfold dashboardStats. rewrite Hf2. do 4 eexists.
  split; [done|]. split; [done|]. unfold countDocuments.
  set (e' := setAttendees (attendees e ++ [user_id req]) e).
  assert (Hold : attending (user_id req) e = false).
  { by apply bool_decide_eq_false. }
  assert (Hnew : attending (user_id req) e' = true).
  { apply bool_decide_eq_true. simpl. set_solver. }
  pose proof (find_length_insert
                (λ e, bool_decide (creator e = user_id req)) s _ e e' He) as H1.
  pose proof (find_length_insert (attending (user_id req)) s _ e e' He) as H2.
  pose proof (find_length_insert
                (λ e, bool_decide (creator e = user_id req)
                      && (now env2 <=? date e)%Z) s _ e e' He) as H3.
  pose proof (find_length_insert
                (λ e, attending (user_id req) e && (now env2 <=? date e)%Z)
                s _ e e' He) as H4.
  simpl in H1, H3, H4. rewrite Hold, Hnew in H2.
  rewrite Hold, Hnew in H4. simpl in H4.
  f_equal.
  - destruct (bool_decide (creator e = user_id req)); lia.
  - lia.
  - destruct (bool_decide (creator e = user_id req) && (now env2 <=? date e)%Z);
      lia.
  - destruct (now env2 <=? date e)%Z; lia.
Qed.

(** ** The event controller *)

(** X13.  A created event is there.  After a creation that succeeded under
    an ObjectId, [getEvent] returns the created event under that id, the
    first join of any user succeeds (the creator's, too), and the creator's
    deletion brings the store back to what it was before the creation. *)
Theorem created_event_is_there newId req s r s' :
  isValid newId = true →
  createEvent newId req s = (r, s') → success r = true →
  ∃ e, event r = Some e
       ∧ (∀ env reqG, params_id reqG = newId → fault env = None →
            event (getEvent isValid env reqG s') = Some e
            ∧ status (getEvent isValid env reqG s') = 200%Z)
       ∧ (∀ env reqJ, params_id reqJ = newId → fault env = None →
            joinEvent isValid env reqJ s'
            = (Joined (setAttendees [user_id reqJ] e),
               <[newId := setAttendees [user_id reqJ] e]> s'))
       ∧ (∀ reqD, params_id reqD = newId → user_id reqD = user_id req →
            (deleteEvent isValid reqD s').2 = s
            ∧ success (deleteEvent isValid reqD s').1 = true).
Proof.
  intros Hv Hc Hs.
  destruct (createEvent_success newId req s r s' Hc Hs)
    as (e & -> & -> & Ha & Hcr & Hsv & Hfresh).
  exists e. split; [done|]. split; [|split].
  - intros env reqG <- Hf. unfold getEvent, findById.
    by rewrite Hv, Hf, lookup_insert_eq.
  - intros env reqJ <- Hf.
    rewrite (joinEvent_applied _ _ _ _ e); try done.
    + by rewrite Ha.
    + by rewrite lookup_insert_eq.
    + apply rsvpCond_spec. rewrite Ha. split; [apply not_elem_of_nil|].
      unfold attendeeCount. rewrite Ha. simpl.
      unfold schemaValidators in Hsv. rewrite !union_None in Hsv.
      destruct Hsv as ((_ & Hcap) & _).
      destruct (Z.ltb_spec (capacity e) 1); [done | lia].
  - intros reqD <- Hu. unfold deleteEvent, findById.
    rewrite Hv, lookup_insert_eq. simpl.
    rewrite bool_decide_eq_true_2 by congruence. simpl.
    by rewrite delete_insert_id.
Qed.

(** X14.  Only its creator deletes an event.  For an event that exists under
    a well-formed id: the request of another user is answered 403 and the
    store stays as it is; the creator's request removes the event, whatever
    its attendees, after which [getEvent] and [joinEvent] for that id answer
    404.  No other event is touched in either case. *)
Theorem delete_event_outcome req s e :
  isValid (params_id req) = true → s !! params_id req = Some e →
  (creator e ≠ user_id req →
     deleteEvent isValid req s
     = (reply 403 "Not authorized to delete this event", s))
  ∧ (creator e = user_id req →
       (deleteEvent isValid req s).2 = delete (params_id req) s
       ∧ success (deleteEvent isValid req s).1 = true
       ∧ ∀ env reqR, params_id reqR = params_id req → fault env = None →
           getEvent isValid env reqR (deleteEvent isValid req s).2 = NotFound
           ∧ joinEvent isValid env reqR (deleteEvent isValid req s).2
             = (NotFound, (deleteEvent isValid req s).2))
  ∧ (∀ id, id ≠ params_id req →
           (deleteEvent isValid req s).2 !! id = s !! id).
Proof.
  intros Hv He. unfold deleteEvent, findById. rewrite Hv, He. simpl.
  split; [|split].
  - intros Hne. by rewrite bool_decide_eq_false_2.
  - intros Heq. rewrite bool_decide_eq_true_2 by done. simpl.
    split; [done|]. split; [done|]. intros env reqR Hid Hf. split.
    + unfold getEvent, findById. by rewrite Hid, Hv, Hf, lookup_delete_eq.
    + rewrite joinEvent_not_applied; try by rewrite ?Hid.
      * unfold joinDiagnose, findById. by rewrite Hid, lookup_delete_eq.
      * intros (e' & He' & _). rewrite Hid, lookup_delete_eq in He'. done.
  - intros id Hid. case_bool_decide; simpl; [|done].
    by rewrite lookup_delete_ne.
Qed.

(** ** Updates *)

Lemma updateEvent_cases req s :
  (updateEvent isValid req s).2 = s
  ∨ ∃ e u, s !! params_id req = Some e ∧ creator e = user_id req
           ∧ isValid (params_id req) = true
           ∧ eventUpdateValidation (body req) = []
           ∧ buildUpdate req e = inr u ∧ updateValidators u = None
           ∧ updateEvent isValid req s
             = (Updated (Some (applyUpdate u e)),
                <[params_id req := applyUpdate u e]> s).
Proof.
  unfold updateEvent, updateRead, findById.
  destruct (eventUpdateValidation (body req)) eqn:Hval; [|by left].
  destruct (isValid (params_id req)) eqn:Hv; simpl; [|by left].
  destruct (s !! params_id req) as [e|] eqn:He; [|by left].
  case_bool_decide as Hown; simpl; [|by left].
  destruct (buildUpdate req e) as [r|u] eqn:Hu; [by left|].
  unfold updateWrite. destruct (updateValidators u) eqn:Hok; [by left|].
  rewrite He. right. exists e, u. done.
Qed.

Lemma updateEvent_success req s r s' :
  updateEvent isValid req s = (r, s') → success r = true →
  ∃ e u, s !! params_id req = Some e ∧ creator e = user_id req
         ∧ isValid (params_id req) = true
         ∧ eventUpdateValidation (body req) = []
         ∧ buildUpdate req e = inr u ∧ updateValidators u = None
         ∧ r = Updated (Some (applyUpdate u e))
         ∧ s' = <[params_id req := applyUpdate u e]> s.
Proof.
  unfold updateEvent, updateRead, findById. intros H Hs.
  destruct (eventUpdateValidation (body req)) eqn:Hval;
    [|by simplify_eq].
  destruct (isValid (params_id req)) eqn:Hv; simpl in H; [|by simplify_eq].
  destruct (s !! params_id req) as [e|] eqn:He; [|by simplify_eq].
  case_bool_decide as Hown; simpl in H; [|by simplify_eq].
  destruct (buildUpdate req e) as [r0|u] eqn:Hu.
  { unfold buildUpdate in Hu. repeat case_match; by simplify_eq. }
  unfold updateWrite in H. destruct (updateValidators u) eqn:Hok;
    [by simplify_eq|].
  rewrite He in H. injection H as <- <-. exists e, u. done.
Qed.

(** X15.  What an update leaves alone.  Whatever the request and its
    outcome, [updateEvent] keeps the attendees, the creator and the
    [isActive] flag of every event, touches no event but the one it
    addresses, and adds or removes none.  A request that is not answered
    with a success, and a request of a user who is not the creator of the
    event, leave the store as it is. *)
Theorem update_event_frame req s :
  (∀ id e, s !! id = Some e →
     ∃ e', (updateEvent isValid req s).2 !! id = Some e'
           ∧ attendees e' = attendees e ∧ creator e' = creator e
           ∧ isActive e' = isActive e
           ∧ (id ≠ params_id req → e' = e))
  ∧ (∀ id, s !! id = None → (updateEvent isValid req s).2 !! id = None)
  ∧ (success (updateEvent isValid req s).1 = false →
     (updateEvent isValid req s).2 = s)
  ∧ (∀ e, s !! params_id req = Some e → creator e ≠ user_id req →
          (updateEvent isValid req s).2 = s
          ∧ success (updateEvent isValid req s).1 = false).
Proof.
  destruct (updateEvent_cases req s)
    as [Hsame|(e0 & u & He0 & Hown & Hv & Hval & Hu & Hok & Hup)].
  - rewrite Hsame. split; [eauto 10|]. split; [done|]. split; [done|].
    intros e He Hne. split; [done|].
    unfold updateEvent, updateRead, findById.
    destruct (eventUpdateValidation (body req)); [|done].
    destruct (isValid (params_id req)); [|done]. simpl.
    rewrite He. by rewrite bool_decide_eq_false_2.
  - rewrite Hup. simpl. split; [|split; [|split]].
    + intros id e He. destruct (decide (id = params_id req)) as [->|Hne].
      * rewrite lookup_insert_eq. assert (e = e0) as -> by congruence.
        eexists. split; [done|]. repeat split; done.
      * rewrite lookup_insert_ne by done. eauto 10.
    + intros id Hid. rewrite lookup_insert_ne; [done|]. congruence.
    + done.
    + intros e He Hne. congruence.
Qed.

Lemma applyUpdate_idem u e : applyUpdate u (applyUpdate u e) = applyUpdate u e.
Proof.
  unfold applyUpdate. simpl.
  destruct u as [t d dt tm l c cap img]. simpl.
  destruct t, d, dt, tm, l, c, cap, img; reflexivity.
Qed.



(** ** Joins in flight together *)

Lemma filter_length_insert (f : Handler → bool) pool : ∀ i h h',
  pool !! i = Some h →
  (length (filter (λ h, f h = true) (<[i := h']> pool))
   + (if f h then 1 else 0)
   = length (filter (λ h, f h = true) pool) + (if f h' then 1 else 0))%nat.
Proof.
  induction pool as [|a l IH]; intros i h h' Hi; [done|].
  destruct i as [|i]; simpl in *.
  - injection Hi as ->. rewrite !filter_cons.
    destruct (f h) eqn:Hh, (f h') eqn:Hh'; repeat case_decide; simpl;
      try congruence; lia.
  - specialize (IH i h h' Hi). rewrite !filter_cons.
    case_decide; simpl; lia.
Qed.

Lemma successes_insert pool i h h' :
  pool !! i = Some h →
  (successes (<[i := h']> pool) + (if succeeded h then 1 else 0)
   = successes pool + (if succeeded h' then 1 else 0))%nat.
Proof. apply filter_length_insert. Qed.

Lemma run_length sched : ∀ pool s,
  length (run isValid sched pool s).1 = length pool.
Proof.
  induction sched as [|i sched IH]; intros pool s; [done|]. simpl.
  destruct (pool !! i) as [h|]; [|apply IH].
  destruct (handlerStep isValid h s) as [h' s'].
  by rewrite IH, length_insert.
Qed.

(** One database call of a join of the pool keeps the pool and the event as
    described. *)
Lemma filling_step eventId e0 pool s i h :
  isValid eventId = true →
  joinsTo eventId e0 pool → filling eventId e0 pool s →
  pool !! i = Some h →
  joinsTo eventId e0 (<[i := (handlerStep isValid h s).1]> pool)
  ∧ filling eventId e0 (<[i := (handlerStep isValid h s).1]> pool)
      (handlerStep isValid h s).2.
Proof.
  intros Hv [Hp1 Hp2] (e & He & Hcap & Hlen & Hwithin & Hmem & Hfull) Hi.
  destruct (Hp1 i h Hi) as (env & req & pc & -> & Hid & Hf & Hnew).
  assert (Hlt : (i < length pool)%nat) by by eapply lookup_lt_Some.
  (* the pool keeps its requests *)
  assert (Hpool : ∀ pc', joinsTo eventId e0 (<[i := HJoin env req pc']> pool)).
  { intros pc'. split.
    - intros j hj Hj. destruct (decide (i = j)) as [<-|Hne].
      + rewrite list_lookup_insert_eq in Hj by done. injection Hj as <-.
        eauto 10.
      + rewrite list_lookup_insert_ne in Hj by done. eauto.
    - intros j k hj hk Hj Hk Hu.
      assert (Hreq : ∀ n hn, <[i := HJoin env req pc']> pool !! n = Some hn →
                ∃ hn', pool !! n = Some hn'
                       ∧ handlerReq hn' = handlerReq hn).
      { intros n hn Hn. destruct (decide (i = n)) as [<-|Hne].
        - rewrite list_lookup_insert_eq in Hn by done. injection Hn as <-.
          eauto.
        - rewrite list_lookup_insert_ne in Hn by done. eauto. }
      destruct (Hreq j hj Hj) as (hj' & Hj' & Hrj).
      destruct (Hreq k hk Hk) as (hk' & Hk' & Hrk).
      apply (Hp2 j k hj' hk' Hj' Hk'). congruence. }
  (* a handler at another position keeps what it is *)
  assert (Hother : ∀ pc' j hj, <[i := HJoin env req pc']> pool !! j = Some hj →
            j = i ∧ hj = HJoin env req pc' ∨ j ≠ i ∧ pool !! j = Some hj).
  { intros pc' j hj Hj. destruct (decide (i = j)) as [<-|Hne].
    - rewrite list_lookup_insert_eq in Hj by done. injection Hj as <-. auto.
    - rewrite list_lookup_insert_ne in Hj by done. auto. }
  destruct pc as [| |r].
  - (* the atomic update *)
    assert (Hfresh : user_id req ∉ attendees e).
    { intros Hin. destruct (Hmem _ Hin) as [?|(j & hj & Hj & Hsj & Huj)];
        [done|].
      assert (j = i) as -> by (by apply (Hp2 j i hj _ Hj Hi)).
      rewrite Hi in Hj. injection Hj as <-. done. }
    simpl. rewrite Hid, Hv, Hf. simpl.
    destruct (Z.ltb_spec (attendeeCount e) (capacity e)) as [Hfree|Hfullnow].
    + rewrite (atomicRSVP_applied _ _ _ e);
        [|done|by apply rsvpCond_spec]. simpl.
      split; [apply Hpool|].
      exists (setAttendees (attendees e ++ [user_id req]) e).
      split; [by rewrite lookup_insert_eq|]. split; [done|].
      pose proof (successes_insert pool i _
                    (HJoin env req
                       (JoinDone (Joined (setAttendees
                                            (attendees e ++ [user_id req]) e))))
                    Hi) as Hcount.
      cbn [succeeded response success Joined] in Hcount.
      unfold attendeeCount in *. cbn [attendees capacity setAttendees].
      rewrite length_app. cbn [length].
      split; [lia|]. split; [lia|]. split.
      * intros u [Hu|Hu%list_elem_of_singleton]%elem_of_app.
        -- destruct (Hmem u Hu) as [?|(j & hj & Hj & Hsj & Huj)]; [by left|].
           right. exists j, hj. split; [|done].
           rewrite list_lookup_insert_ne; [done|].
           intros <-. rewrite Hi in Hj. by injection Hj as <-.
        -- right. exists i. eexists. rewrite list_lookup_insert_eq by done.
           split; [done|]. simpl. done.
      * intros (j & hj & Hj & Hr). exfalso.
        destruct (Hother _ j hj Hj) as [[-> ->]|[Hne Hj']]; [done|].
        assert (Hnow : (capacity e ≤ attendeeCount e)%Z) by eauto.
        unfold attendeeCount in Hnow. lia.
    + rewrite atomicRSVP_not_applied.
      2:{ intros (e' & He' & _ & Hlt'). rewrite He in He'.
          injection He' as <-. lia. }
      simpl. split; [apply Hpool|].
      exists e. split; [done|]. split; [done|].
      pose proof (successes_insert pool i _
                    (HJoin env req JoinDiagnose) Hi) as Hcount.
      cbn [succeeded response] in Hcount.
      split; [lia|]. split; [done|]. split.
      * intros u Hu. destruct (Hmem u Hu) as [?|(j & hj & Hj & Hsj & Huj)];
          [by left|].
        right. exists j, hj. split; [|done].
        rewrite list_lookup_insert_ne; [done|].
        intros <-. rewrite Hi in Hj. by injection Hj as <-.
      * intros _. done.
  - (* the diagnosis *)
    simpl. split; [apply Hpool|].
    exists e. split; [done|]. split; [done|].
    pose proof (successes_insert pool i _
                  (HJoin env req (JoinDone (joinDiagnose env req s))) Hi)
      as Hcount.
    cbn [succeeded response] in Hcount.
    destruct (joinDiagnose_failure env req s) as [Hno _].
    rewrite Hno in Hcount.
    split; [lia|]. split; [done|]. split.
    + intros u Hu. destruct (Hmem u Hu) as [?|(j & hj & Hj & Hsj & Huj)];
        [by left|].
      right. exists j, hj. split; [|done].
      rewrite list_lookup_insert_ne; [done|].
      intros <-. rewrite Hi in Hj. by injection Hj as <-.
    + intros _. apply Hfull. exists i. eauto.
  - (* a join that has answered *)
    simpl. rewrite list_insert_id by done. split; [done|].
    exists e. done.
Qed.

Lemma filling_run eventId e0 sched : ∀ pool s,
  isValid eventId = true →
  joinsTo eventId e0 pool → filling eventId e0 pool s →
  joinsTo eventId e0 (run isValid sched pool s).1
  ∧ filling eventId e0 (run isValid sched pool s).1
      (run isValid sched pool s).2.
Proof.
  induction sched as [|i sched IH]; intros pool s Hv Hp Hfill; [done|].
  simpl. destruct (pool !! i) as [h|] eqn:Hi; [|by apply IH].
  destruct (filling_step eventId e0 pool s i h Hv Hp Hfill Hi) as [Hp' Hfill'].
  destruct (handlerStep isValid h s) as [h' s']. by apply IH.
Qed.

Lemma successes_joinPool reqs : successes (joinPool reqs) = 0%nat.
Proof.
  unfold successes, joinPool. induction reqs as [|er reqs IH]; [done|].
  rewrite fmap_cons, filter_cons. by case_decide.
Qed.

Lemma successes_all pool :
  Forall (λ h, succeeded h = true) pool → successes pool = length pool.
Proof.
  unfold successes. induction 1 as [|h l Hh _ IH]; [done|].
  rewrite filter_cons, decide_True by done. simpl. by rewrite IH.
Qed.

(** X19.  As many joins succeed as there are spots.  An event within its
    capacity, and any number of joins to it in flight together: of distinct
    users who are no attendees yet, with a well-formed id and without a
    fault of the driver.  Under every schedule of their database calls that
    gives each of them its two turns, every join is answered, exactly
    [min N free] of the [N] joins are answered with a success, where [free]
    is the capacity minus the attendees at the start, the event has that
    many attendees more in the end, and it is within its capacity. *)
Theorem concurrent_joins_fill_spots eventId e0 s0 reqs sched :
  isValid eventId = true → s0 !! eventId = Some e0 → withinCapacity e0 →
  Forall (λ er : Env * Request,
            params_id er.2 = eventId ∧ fault er.1 = None
            ∧ user_id er.2 ∉ attendees e0) reqs →
  NoDup ((λ er : Env * Request, user_id er.2) <$> reqs) →
  (∀ i, (i < length reqs)%nat → (2 ≤ turns i sched)%nat) →
  ∀ pool s, run isValid sched (joinPool reqs) s0 = (pool, s) →
    Forall (λ h, is_Some (response h)) pool
    ∧ successes pool
      = (length reqs `min` Z.to_nat (capacity e0 - attendeeCount e0))%nat
    ∧ length (members s eventId)
      = (length (attendees e0) + successes pool)%nat
    ∧ (Z.of_nat (length (members s eventId)) ≤ capacity e0)%Z.
Proof.
  intros Hv He0 Hwithin Hreqs Hnd Hturns pool s Hrun.
  assert (Hp0 : joinsTo eventId e0 (joinPool reqs)).
  { split.
    - intros i h Hi. unfold joinPool in Hi. rewrite list_lookup_fmap in Hi.
      destruct (reqs !! i) as [er|] eqn:Her; [|done]. injection Hi as <-.
      destruct (proj1 (Forall_lookup _ _) Hreqs i er Her) as (? & ? & ?).
      eauto 10.
    - intros i j hi hj Hi Hj Hu. unfold joinPool in Hi, Hj.
      rewrite list_lookup_fmap in Hi, Hj.
      destruct (reqs !! i) as [eri|] eqn:Hri; [|done].
      destruct (reqs !! j) as [erj|] eqn:Hrj; [|done].
      injection Hi as <-. injection Hj as <-. simpl in Hu.
      apply (NoDup_lookup _ i j (user_id eri.2) Hnd);
        rewrite list_lookup_fmap; [by rewrite Hri | by rewrite Hrj, Hu]. }
  assert (Hf0 : filling eventId e0 (joinPool reqs) s0).
  { exists e0. rewrite successes_joinPool. repeat split; try done; try lia.
    - by left.
    - intros (i & h & Hi & Hr). unfold joinPool in Hi.
      rewrite list_lookup_fmap in Hi.
      destruct (reqs !! i); [|done]. by injection Hi as <-. }
  destruct (filling_run eventId e0 sched _ s0 Hv Hp0 Hf0) as [Hp Hfill].
  pose proof (run_length sched (joinPool reqs) s0) as Hlen.
  rewrite Hrun in Hp, Hfill, Hlen. simpl in Hp, Hfill, Hlen.
  unfold joinPool in Hlen. rewrite length_fmap in Hlen.
  assert (Hresp : Forall (λ h, is_Some (response h)) pool).
  { apply Forall_lookup. intros i h Hi.
    assert (Hi' : (i < length reqs)%nat).
    { rewrite <- Hlen. by eapply lookup_lt_Some. }
    destruct (lookup_lt_is_Some_2 (joinPool reqs) i) as [h0 Hh0].
    { unfold joinPool. by rewrite length_fmap. }
    destruct (run_responds isValid sched _ s0 i h0 Hh0 (Hturns i Hi'))
      as (h' & Hh' & Hsome).
    rewrite Hrun in Hh'. simpl in Hh'. congruence. }
  split; [done|].
  destruct Hfill as (e & He & Hcap & Hcount & Hle & _ & Hfull).
  unfold members. rewrite He. unfold attendeeCount in *.
  assert (Hmin : successes pool
                 = (length reqs
                    `min` Z.to_nat (capacity e0
                                    - Z.of_nat (length (attendees e0))))%nat).
  { destruct (decide (Exists (λ h, refused h = true) pool)) as [Hex|Hnone].
    - apply Exists_exists in Hex as (h & Hin & Hr).
      apply list_elem_of_lookup in Hin as [i Hi].
      assert (capacity e ≤ Z.of_nat (length (attendees e)))%Z by eauto.
      assert (successes pool ≤ length pool)%nat by apply length_filter.
      lia.
    - assert (Hall : Forall (λ h, succeeded h = true) pool).
      { apply Forall_lookup. intros i h Hi.
        destruct (proj1 Hp i h Hi) as (env & req & pc & -> & _).
        pose proof (proj1 (Forall_lookup _ _) Hresp i _ Hi) as [r Hr].
        destruct pc; simpl in Hr; try done. injection Hr as ->. simpl.
        destruct (success r) eqn:Hs; [done|]. exfalso. apply Hnone.
        apply Exists_exists. eexists. split;
          [by eapply list_elem_of_lookup_2|]. simpl. by rewrite Hs. }
      rewrite (successes_all pool Hall) in *. lia. }
  split; [done|]. split; [done|]. lia.
Qed.


(** ** Within capacity, first come first served *)

(** X24.  Requests keep every event within its capacity: joins and leaves
    in flight together, under every schedule of their database calls, and
    an update, a creation or a deletion served with no other request in
    between. *)
Theorem capacity_kept_by_requests :
  (∀ sched pool s,
     Forall (λ h, isRsvp h = true) pool → noOverbooking s →
     noOverbooking (run isValid sched pool s).2)
  ∧ (∀ req s, noOverbooking s → noOverbooking (updateEvent isValid req s).2)
  ∧ (∀ newId req s, noOverbooking s →
       noOverbooking (createEvent newId req s).2)
  ∧ (∀ req s, noOverbooking s → noOverbooking (deleteEvent isValid req s).2).
Proof.
  split; [|split; [|split]].
  - intros sched pool s. apply run_rsvp_noOverbooking.
  - apply updateEvent_noOverbooking.
  - apply createEvent_noOverbooking.
  - apply deleteEvent_noOverbooking.
Qed.

(** X25.  First come, first served.  Joins of distinct users, none of them
    an attendee yet, to an event with a well-formed id, served one after the
    other without a fault of the driver: the attendees in the end are those
    of the start followed by the first requesters, in the order of their
    requests, as many as there were free spots. *)
Theorem first_come_first_served reqs s e eventId :
  s !! eventId = Some e → isValid eventId = true →
  Forall (λ er : Env * Request,
            params_id er.2 = eventId ∧ fault er.1 = None) reqs →
  NoDup ((λ er : Env * Request, user_id er.2) <$> reqs) →
  Forall (λ er : Env * Request, user_id er.2 ∉ attendees e) reqs →
  members (joinAll isValid reqs s).2 eventId
  = attendees e
    ++ take (Z.to_nat (capacity e - attendeeCount e))
         ((λ er : Env * Request, user_id er.2) <$> reqs)
  ∧ length (joinAll isValid reqs s).1 = length reqs.
Proof.
  intros He Hv Hall Hnd Hnew. split; [by apply joinAll_distinct|].
  clear. revert s. induction reqs as [|[env req] reqs IH]; intros s; [done|].
  simpl. destruct (joinEvent isValid env req s) as [r s1].
  specialize (IH s1). destruct (joinAll isValid reqs s1) as [rs s2].
  simpl in *. by rewrite IH.
Qed.

End Further.

(** * Access *)

(** X20.  The client's header and the server's token.  From the header
    [Bearer <token>] that the client sends, the middleware takes the token
    back when the token has no space in it.  A header that does not start
    with [Bearer], and a header without a space, carry no token. *)
Theorem bearer_token_round_trip :
  (∀ token, " "%char ∉ String.list_ascii_of_string token →
            bearerToken (Some (authorizationHeader token)) = Some token)
  ∧ (∀ header, String.prefix "Bearer" header = false →
               bearerToken (Some header) = None)
  ∧ (∀ header, " "%char ∉ String.list_ascii_of_string header →
               bearerToken (Some header) = None).
Proof.
  assert (Hone : ∀ s, " "%char ∉ String.list_ascii_of_string s →
                      split " " s = [s]).
  { induction s as [|c s IH]; intros Hn; [done|]. simpl in *.
    apply not_elem_of_cons in Hn as [Hc Hn].
    destruct (Ascii.eqb_spec c " "); [congruence|]. by rewrite IH. }
  split; [|split].
  - intros token Hn. unfold bearerToken, authorizationHeader. simpl.
    by rewrite Hone.
  - intros header Hp. unfold bearerToken.
    destruct (truthy (Some header)) as [h|] eqn:Ht; [|done].
    assert (h = header) as ->. { destruct header; simpl in Ht; congruence. }
    by rewrite Hp.
  - intros header Hn. unfold bearerToken.
    destruct (truthy (Some header)) as [h|] eqn:Ht; [|done].
    assert (h = header) as ->. { destruct header; simpl in Ht; congruence. }
    rewrite (Hone header Hn). by destruct (String.prefix "Bearer" header).
Qed.

Section Access.

Variable User : Type.
Variable verify : string → Verified.
Variable isValid : string → bool.

(** X21.  Whom [protect] lets through.  It calls [next] if and only if the
    header carries a token that is not empty, the token verifies, the id of
    its payload is well formed, the driver raises no fault, and a user has
    that id; [req.user] is then that user.  In every other case it answers,
    with status 401. *)
Theorem protect_passes env authorization (users : gmap string User) :
  (∀ user, protect User verify isValid env authorization users = Next user
           ↔ ∃ token id u,
               bearerToken authorization = Some token ∧ token ≠ ""
               ∧ verify token = Decoded id ∧ isValid id = true
               ∧ fault env = None ∧ users !! id = Some u
               ∧ user = Some u)
  ∧ (∀ r, protect User verify isValid env authorization users = Answered r →
          status r = 401%Z ∧ success r = false).
Proof.
  unfold protect, findUser.
  destruct (bearerToken authorization) as [token|] eqn:Htok; simpl.
  2:{ split; [|by intros r [= <-]].
      intros user. split; [done|]. by intros (? & ? & ? & ? & _). }
  destruct token as [|c token]; simpl.
  { split; [|by intros r [= <-]].
    intros user. split; [done|]. intros (? & ? & ? & ? & ? & _). congruence. }
  destruct (verify (String c token)) as [id| | |] eqn:Hver;
    try (split; [|by intros r [= <-]]; intros user; split; [done|];
         intros (? & ? & ? & ? & ? & ? & _); congruence).
  destruct (isValid id) eqn:Hid; simpl.
  2:{ split; [|by intros r [= <-]]. intros user. split; [done|].
      intros (? & ? & ? & ? & ? & ? & ? & _). congruence. }
  destruct (fault env) as [err|] eqn:Hf.
  { split; [|by intros r [= <-]]. intros user. split; [done|].
    intros (? & ? & ? & ? & ? & ? & ? & ? & _). congruence. }
  destruct (users !! id) as [u|] eqn:Hu.
  - split; [|done]. intros user. split.
    + intros [= <-]. exists (String c token), id, u. done.
    + intros (? & ? & ? & ? & ? & ? & ? & ? & ? & ->). congruence.
  - split; [|by intros r [= <-]]. intros user. split; [done|].
    intros (? & ? & ? & ? & ? & ? & ? & ? & ? & _). congruence.
Qed.

(** X22.  [optionalAuth] never answers: it always calls [next], and it sets
    [req.user] to exactly the user that [protect] would let through for the
    same request, and to none when [protect] would answer. *)
Theorem optional_auth_agrees env authorization (users : gmap string User) :
  optionalAuth User verify isValid env authorization users
  = Next match protect User verify isValid env authorization users with
         | Next user => user
         | Answered _ => None
         end.
Proof.
  unfold optionalAuth, protect.
  destruct (truthy (bearerToken authorization)) as [token|]; [|done].
  destruct (verify token) as [id| | |]; try done.
  by destruct (findUser User isValid env users id) as [err|[user|]].
Qed.

End Access.

Section Profiles.

Variable User : Type.
Variable isValid : string → bool.


End Profiles.

(** * The further properties on worked data *)

(** ** The list routes and the counts *)

Lemma my_rsvps_listing_witness :
  ∃ events,
    getMyRsvps before (rsvp bob) twoEvents
    = Listed (Z.of_nat (length events)) events
    ∧ (∀ id e, (id, e) ∈ events
               ↔ twoEvents !! id = Some e ∧ bob ∈ attendees e
                 ∧ isActive e = true)
    ∧ StronglySorted byDate events
    ∧ NoDup events.*1.
Proof. exact (my_rsvps_listing before (rsvp bob) twoEvents eq_refl). Defined.

Lemma dashboard_counts_witness :
  ∃ totalCreated totalRsvps upcomingCreated upcomingRsvps,
    dashboardStats before (rsvp alice) twoEvents
    = Stats totalCreated totalRsvps upcomingCreated upcomingRsvps
    ∧ (0 ≤ upcomingCreated ≤ totalCreated)%Z
    ∧ (0 ≤ upcomingRsvps ≤ totalRsvps)%Z
    ∧ getMyEvents before (rsvp alice) twoEvents
      = Listed totalCreated
          (eventsOf (getMyEvents before (rsvp alice) twoEvents))
    ∧ ∃ count, getMyRsvps before (rsvp alice) twoEvents
               = Listed count
                   (eventsOf (getMyRsvps before (rsvp alice) twoEvents))
               ∧ (count ≤ totalRsvps)%Z.
Proof. exact (dashboard_counts before (rsvp alice) twoEvents eq_refl). Defined.

Lemma my_events_listing_witness :
  (∀ id e, (id, e) ∈ eventsOf (getMyEvents before (rsvp alice) twoEvents)
           ↔ twoEvents !! id = Some e ∧ creator e = alice)
  ∧ StronglySorted byDate (eventsOf (getMyEvents before (rsvp alice) twoEvents))
  ∧ NoDup (eventsOf (getMyEvents before (rsvp alice) twoEvents)).*1
  ∧ (∀ newId reqC r s' e, createEvent newId reqC twoEvents = (r, s') →
       event r = Some e → user_id reqC = alice →
       (newId, e) ∈ eventsOf (getMyEvents before (rsvp alice) s')).
Proof. exact (my_events_listing before (rsvp alice) twoEvents eq_refl). Defined.

(** ** Validation and creation *)



(** ** Joining and leaving *)


Lemma leave_frees_spot_witness :
  success (joinEvent isHex24 before (rsvp carol)
             (leaveEvent isHex24 before (rsvp bob)
                (storeWith 2 [bob; alice])).2).1 = true
  ∧ members (joinEvent isHex24 before (rsvp carol)
               (leaveEvent isHex24 before (rsvp bob)
                  (storeWith 2 [bob; alice])).2).2 party
    = members (leaveEvent isHex24 before (rsvp bob)
                 (storeWith 2 [bob; alice])).2 party ++ [carol].
Proof.
  apply (leave_frees_spot isHex24 before (rsvp bob) before (rsvp carol)
           (storeWith 2 [bob; alice])
           (leaveEvent isHex24 before (rsvp bob) (storeWith 2 [bob; alice])).1).
  - by apply noOverbooking_storeWith.
  - apply surjective_pairing.
  - done.
  - done.
  - done.
  - compute_done.
Defined.

Lemma joins_to_different_events_commute_witness :
  (joinEvent isHex24 before (rsvpTo meetup carol)
     (joinEvent isHex24 before (rsvpTo party alice) twoEvents).2).2
  = (joinEvent isHex24 before (rsvpTo party alice)
       (joinEvent isHex24 before (rsvpTo meetup carol) twoEvents).2).2.
Proof.
  apply (joins_to_different_events_commute isHex24 before before
           (rsvpTo party alice) (rsvpTo meetup carol) twoEvents).
  compute_done.
Defined.

(** ** The RSVP status *)


Lemma rsvp_status_after_witness :
  ∃ isCreator spots full,
    checkRsvpStatus isHex24 after (rsvp alice)
      (joinEvent isHex24 before (rsvp alice) (storeWith 2 [bob])).2
    = Status true isCreator spots full
    ∧ spotsRemaining
        (joinEvent isHex24 before (rsvp alice) (storeWith 2 [bob])).1
      = Some spots.
Proof.
  apply (proj1 (rsvp_status_after isHex24 before after (rsvp alice)
                  (storeWith 2 [bob]) eq_refl));
    [apply surjective_pairing | done].
Defined.

(** ** The list routes and the RSVPs *)

Lemma my_rsvps_follow_rsvps_witness :
  (party, eventWith 2 [bob; alice])
  ∈ eventsOf (getMyRsvps after (rsvp alice)
                (joinEvent isHex24 before (rsvp alice) (storeWith 2 [bob])).2)
  ∧ (party, eventWith 2 [])
    ∉ eventsOf (getMyRsvps after (rsvp bob)
                  (leaveEvent isHex24 before (rsvp bob) (storeWith 2 [bob])).2).
Proof.
  split.
  - by apply (proj1 (my_rsvps_follow_rsvps isHex24 before after (rsvp alice)
                       (storeWith 2 [bob]))
                (joinEvent isHex24 before (rsvp alice) (storeWith 2 [bob])).1
                (joinEvent isHex24 before (rsvp alice) (storeWith 2 [bob])).2).
  - by apply (proj1 (proj2 (my_rsvps_follow_rsvps isHex24 before after
                              (rsvp bob) (storeWith 2 [bob])))
                (leaveEvent isHex24 before (rsvp bob) (storeWith 2 [bob])).1
                (leaveEvent isHex24 before (rsvp bob) (storeWith 2 [bob])).2).
Defined.

Lemma dashboard_after_join_witness :
  ∃ e totalCreated totalRsvps upcomingCreated upcomingRsvps,
    storeWith 2 [bob] !! party = Some e
    ∧ dashboardStats before (rsvp alice) (storeWith 2 [bob])
      = Stats totalCreated totalRsvps upcomingCreated upcomingRsvps
    ∧ dashboardStats before (rsvp alice)
        (joinEvent isHex24 before (rsvp alice) (storeWith 2 [bob])).2
      = Stats totalCreated (totalRsvps + 1) upcomingCreated
          (upcomingRsvps + (if (now before <=? date e)%Z then 1 else 0)).
Proof.
  apply (dashboard_after_join isHex24 before before (rsvp alice)
           (storeWith 2 [bob])
           (joinEvent isHex24 before (rsvp alice) (storeWith 2 [bob])).1);
    [apply surjective_pairing | done | done].
Defined.

(** ** The event controller *)

Lemma created_event_is_there_witness :
  ∃ e, event (createEvent party (creation 2) ∅).1 = Some e
       ∧ (∀ env reqG, params_id reqG = party → fault env = None →
            event (getEvent isHex24 env reqG (createEvent party (creation 2) ∅).2)
            = Some e
            ∧ status (getEvent isHex24 env reqG
                        (createEvent party (creation 2) ∅).2) = 200%Z)
       ∧ (∀ env reqJ, params_id reqJ = party → fault env = None →
            joinEvent isHex24 env reqJ (createEvent party (creation 2) ∅).2
            = (Joined (setAttendees [user_id reqJ] e),
               <[party := setAttendees [user_id reqJ] e]>
                 (createEvent party (creation 2) ∅).2))
       ∧ (∀ reqD, params_id reqD = party → user_id reqD = owner →
            (deleteEvent isHex24 reqD (createEvent party (creation 2) ∅).2).2
            = ∅
            ∧ success (deleteEvent isHex24 reqD
                         (createEvent party (creation 2) ∅).2).1 = true).
Proof.
  apply (created_event_is_there isHex24 party (creation 2) ∅
           (createEvent party (creation 2) ∅).1);
    [done | apply surjective_pairing | done].
Defined.

Lemma delete_event_outcome_witness :
  deleteEvent isHex24 (rsvp alice) (storeWith 2 [bob])
  = (reply 403 "Not authorized to delete this event", storeWith 2 [bob])
  ∧ (deleteEvent isHex24 (rsvp owner) (storeWith 2 [bob])).2
    = delete party (storeWith 2 [bob])
  ∧ success (deleteEvent isHex24 (rsvp owner) (storeWith 2 [bob])).1 = true
  ∧ getEvent isHex24 before (rsvp bob)
      (deleteEvent isHex24 (rsvp owner) (storeWith 2 [bob])).2
    = NotFound.
Proof.
  destruct (delete_event_outcome isHex24 (rsvp alice) (storeWith 2 [bob])
              (eventWith 2 [bob]) eq_refl (storeWith_party _ _))
    as (Hother & _).
  destruct (delete_event_outcome isHex24 (rsvp owner) (storeWith 2 [bob])
              (eventWith 2 [bob]) eq_refl (storeWith_party _ _))
    as (_ & Hown & _).
  destruct (Hown eq_refl) as (Hs & Hr & Hgone).
  split; [by apply Hother|]. split; [done|]. split; [done|].
  by apply (Hgone before (rsvp bob)).
Defined.

(** ** Updates *)

Lemma update_event_frame_witness :
  updateEvent isHex24 (setCapacity 0) (storeWith 2 [bob])
  = ((updateEvent isHex24 (setCapacity 0) (storeWith 2 [bob])).1,
     storeWith 2 [bob]).
Proof.
  destruct (update_event_frame isHex24 (setCapacity 0) (storeWith 2 [bob]))
    as (_ & _ & H & _).
  rewrite <- H at 3 by done. apply surjective_pairing.
Defined.



(** ** Joins in flight together *)

Lemma concurrent_joins_fill_spots_witness :
  successes
    (run isHex24 [0; 1; 2; 2; 1; 0]%nat
       (joinPool [(before, rsvp alice); (before, rsvp carol);
                  (before, rsvp owner)])
       (storeWith 3 [bob])).1 = 2%nat
  ∧ length
      (members
         (run isHex24 [0; 1; 2; 2; 1; 0]%nat
            (joinPool [(before, rsvp alice); (before, rsvp carol);
                       (before, rsvp owner)])
            (storeWith 3 [bob])).2 party) = 3%nat.
Proof.
  destruct (concurrent_joins_fill_spots isHex24 party (eventWith 3 [bob])
              (storeWith 3 [bob])
              [(before, rsvp alice); (before, rsvp carol);
               (before, rsvp owner)]
              [0; 1; 2; 2; 1; 0]%nat) with
    (pool := (run isHex24 [0; 1; 2; 2; 1; 0]%nat
                (joinPool [(before, rsvp alice); (before, rsvp carol);
                           (before, rsvp owner)])
                (storeWith 3 [bob])).1)
    (s := (run isHex24 [0; 1; 2; 2; 1; 0]%nat
             (joinPool [(before, rsvp alice); (before, rsvp carol);
                        (before, rsvp owner)])
             (storeWith 3 [bob])).2)
    as (_ & H1 & H2 & _).
  - done.
  - apply storeWith_party.
  - unfold withinCapacity. vm_compute. discriminate.
  - repeat constructor; compute_done.
  - compute_done.
  - intros [|[|[|i]]] Hi; [vm_compute; lia.. | simpl in Hi; lia].
  - apply surjective_pairing.
  - split; [exact H1 | exact H2].
Defined.

Lemma capacity_kept_by_requests_witness :
  noOverbooking
    (run isHex24 [1; 0; 1; 0]%nat
       [HJoin before (rsvp alice) JoinStart;
        HLeave before (rsvp bob) LeaveStart]
       (storeWith 1 [bob])).2
  ∧ noOverbooking (updateEvent isHex24 (setCapacity 1) (storeWith 2 [bob])).2.
Proof.
  destruct (capacity_kept_by_requests isHex24) as (Hrun & Hupd & _).
  split.
  - apply Hrun; [by repeat constructor | by apply noOverbooking_storeWith].
  - apply Hupd. by apply noOverbooking_storeWith.
Defined.

Lemma first_come_first_served_witness :
  members
    (joinAll isHex24
       [(before, rsvp alice); (before, rsvp carol); (before, rsvp owner)]
       (storeWith 3 [bob])).2 party
  = [bob; alice; carol]
  ∧ length
      (joinAll isHex24
         [(before, rsvp alice); (before, rsvp carol); (before, rsvp owner)]
         (storeWith 3 [bob])).1 = 3%nat.
Proof.
  apply (first_come_first_served isHex24
           [(before, rsvp alice); (before, rsvp carol); (before, rsvp owner)]
           (storeWith 3 [bob]) (eventWith 3 [bob]) party).
  - apply storeWith_party.
  - done.
  - by repeat constructor.
  - compute_done.
  - repeat constructor; compute_done.
Defined.

(** ** Access *)

Lemma bearer_token_round_trip_witness :
  bearerToken (Some (authorizationHeader "token-of-alice"))
  = Some "token-of-alice"
  ∧ bearerToken (Some "Basic dXNlcjpwYXNz") = None
  ∧ bearerToken (Some "Bearer") = None.
Proof.
  destruct bearer_token_round_trip as (H1 & H2 & H3).
  split; [|split].
  - apply H1. compute_done.
  - by apply H2.
  - apply H3. compute_done.
Defined.

Lemma protect_passes_witness :
  protect string verifyDemo isHex24 before
    (Some (authorizationHeader "token-of-alice")) people
  = Next (Some "Alice")
  ∧ ∀ r, protect string verifyDemo isHex24 before
           (Some (authorizationHeader "token-of-nobody")) people
         = Answered r →
         status r = 401%Z ∧ success r = false.
Proof.
  split.
  - apply (proj1 (protect_passes string verifyDemo isHex24 before
                    (Some (authorizationHeader "token-of-alice")) people)).
    exists "token-of-alice", alice, "Alice". by repeat split.
  - apply (proj2 (protect_passes string verifyDemo isHex24 before
                    (Some (authorizationHeader "token-of-nobody")) people)).
Defined.

